(** * knxrpc: the in-process event distribution engine

    A shallow embedding of the subscriber registry (helper.go), the
    dispatcher (knx.go), the mapper (mapper.go) and the three RPCs
    (rpcs.go) of choopm/knxrpc, with the properties of the design
    document that concern them. *)

From Stdlib Require Import Ascii.
From stdpp Require Import gmap strings list.

Open Scope string_scope.
Open Scope list_scope.
Open Scope nat_scope.

(** ** Data model *)

(** [cemi.GroupAddr] and [cemi.IndividualAddr] are [uint16] in knx-go. *)
Definition GroupAddr := N.
Definition IndividualAddr := N.

(** [knx.GroupCommand] is a [uint8]; knx-go names three of its values. *)
Definition GroupCommand := N.
Definition GroupRead : GroupCommand := 0%N.
Definition GroupResponse : GroupCommand := 1%N.
Definition GroupWrite : GroupCommand := 2%N.

(** [knx.GroupEvent] *)
Record GroupEvent := mkGroupEvent {
  Command : GroupCommand;
  Source : IndividualAddr;
  Destination : GroupAddr;
  Data : list N
}.

(** Modelled from the spec: the generated protobuf package
    knx/groupaddress/v1 is not part of the sources at hand; the event kind
    is the enumeration (Unspecified, Read, Response, Write). *)
Inductive Event :=
  | Event_EVENT_UNSPECIFIED
  | Event_EVENT_READ
  | Event_EVENT_RESPONSE
  | Event_EVENT_WRITE.

Global Instance Event_eq_dec : EqDecision Event.
Proof. solve_decision. Defined.

(** Modelled from the spec: message types of knx/groupaddress/v1, with the
    fields the handlers read and write. *)
Record SubscribeRequest := mkSubscribeRequest {
  GroupAddresses : list string;
  Event_of : Event
}.

Record SubscribeResponse := mkSubscribeResponse {
  resp_GroupAddress : string;
  resp_PhysicalAddress : string;
  resp_Event : Event;
  resp_Data : list N
}.

Record PublishRequest := mkPublishRequest {
  pub_GroupAddress : string;
  pub_PhysicalAddress : string;
  pub_Event : Event;
  pub_Data : list N
}.

Record SubscribeUnaryRequest := mkSubscribeUnaryRequest {
  unary_SubscribeRequest : SubscribeRequest;
  For : string
}.

(** A [*connect.ServerStream] is compared by pointer only: a stream is its
    address. *)
Definition ServerStream := nat.

(** Modelled from the spec: the struct [subscriber] (its declaration is not
    in the sources at hand) as helper.go builds it: the request and the
    stream of one Subscribe call. *)
Record subscriber := mkSubscriber {
  req : SubscribeRequest;
  stream : ServerStream
}.

(** The registry part of [Server] (config.go): [subscribers] is the Go map
    from group address to slice, [sniffers] the slice of unfiltered
    subscribers. *)
Record Server := mkServer {
  subscribers : gmap GroupAddr (list subscriber);
  sniffers : list subscriber
}.

(** [New]: both collections start empty. *)
Definition New : Server := {| subscribers := ∅; sniffers := [] |}.

(** ** Registry (helper.go) *)

(** One iteration of the loop of [registerSubscriber]. *)
Definition register_address (r : SubscribeRequest) (st : ServerStream)
    (m : gmap GroupAddr (list subscriber)) (address : GroupAddr)
    : gmap GroupAddr (list subscriber) :=
  let subs := match m !! address with
              | Some subs => subs
              | None => []
              end in
  let subs := subs ++ [{| req := r; stream := st |}] in
  <[address := subs]> m.

Definition registerSubscriber (addresses : list GroupAddr)
    (r : SubscribeRequest) (st : ServerStream) (s : Server) : Server :=
  {| subscribers := foldl (register_address r st) (subscribers s) addresses;
     sniffers := sniffers s |}.

(** [subs[len(subs)-1].stream == stream], guarded by [len(subs) > 0]. *)
Definition last_is (st : ServerStream) (subs : list subscriber) : bool :=
  match last subs with
  | Some l => bool_decide (stream l = st)
  | None => false
  end.

(** [subs[:len(subs)-1]] *)
Definition drop_last (subs : list subscriber) : list subscriber :=
  take (length subs - 1) subs.

(** The index at which the search loop finds the stream first. *)
Fixpoint find_stream (st : ServerStream) (subs : list subscriber) : option nat :=
  match subs with
  | [] => None
  | sub :: rest =>
      if bool_decide (stream sub = st) then Some 0
      else S <$> find_stream st rest
  end.

(** The search loop: at the first index [i] holding the stream,
    [subs[i] = subs[len(subs)-1]], then the last element is dropped; a
    slice without the stream is left as it is. *)
Definition swap_remove (st : ServerStream) (subs : list subscriber)
    : list subscriber :=
  match find_stream st subs with
  | Some i =>
      match last subs with
      | Some l => drop_last (<[i := l]> subs)
      | None => subs
      end
  | None => subs
  end.

(** One iteration of the loop of [unregisterSubscriber]. *)
Definition unregister_address (st : ServerStream)
    (m : gmap GroupAddr (list subscriber)) (address : GroupAddr)
    : gmap GroupAddr (list subscriber) :=
  match m !! address with
  | None => m
  | Some subs =>
      if last_is st subs then
        let subs := drop_last subs in
        if bool_decide (0 < length subs) then <[address := subs]> m
        else delete address m
      else <[address := swap_remove st subs]> m
  end.

Definition unregisterSubscriber (addresses : list GroupAddr)
    (st : ServerStream) (s : Server) : Server :=
  {| subscribers := foldl (unregister_address st) (subscribers s) addresses;
     sniffers := sniffers s |}.

Definition registerSniffer (r : SubscribeRequest) (st : ServerStream)
    (s : Server) : Server :=
  {| subscribers := subscribers s;
     sniffers := sniffers s ++ [{| req := r; stream := st |}] |}.

Definition unregisterSniffer (st : ServerStream) (s : Server) : Server :=
  {| subscribers := subscribers s;
     sniffers := if last_is st (sniffers s) then drop_last (sniffers s)
                 else swap_remove st (sniffers s) |}.

(** What the other calls may do to the registry while one call is parked. *)
Inductive registry_op :=
  | OpRegisterSubscriber (addresses : list GroupAddr) (r : SubscribeRequest)
      (st : ServerStream)
  | OpUnregisterSubscriber (addresses : list GroupAddr) (st : ServerStream)
  | OpRegisterSniffer (r : SubscribeRequest) (st : ServerStream)
  | OpUnregisterSniffer (st : ServerStream).

Definition apply_op (s : Server) (o : registry_op) : Server :=
  match o with
  | OpRegisterSubscriber addresses r st => registerSubscriber addresses r st s
  | OpUnregisterSubscriber addresses st => unregisterSubscriber addresses st s
  | OpRegisterSniffer r st => registerSniffer r st s
  | OpUnregisterSniffer st => unregisterSniffer st s
  end.

Definition run_ops (ops : list registry_op) (s : Server) : Server :=
  foldl apply_op s ops.

Definition op_stream (o : registry_op) : ServerStream :=
  match o with
  | OpRegisterSubscriber _ _ st | OpUnregisterSubscriber _ st
  | OpRegisterSniffer _ st | OpUnregisterSniffer st => st
  end.

(** How often a stream occurs in a slice. *)
Definition occ (st : ServerStream) (subs : list subscriber) : nat :=
  length (filter (λ sub, stream sub = st) subs).

(** The slice the map holds for a topic ([nil] when the key is absent). *)
Definition byTopic (s : Server) (t : GroupAddr) : list subscriber :=
  default [] (subscribers s !! t).

(** No key of the map holds an empty slice. *)
Definition no_empty_entry (m : gmap GroupAddr (list subscriber)) : Prop :=
  ∀ t subs, m !! t = Some subs → subs ≠ [].

(** The stream occurs in no slice of the map. *)
Definition stream_free (st : ServerStream)
    (m : gmap GroupAddr (list subscriber)) : Prop :=
  ∀ t subs, m !! t = Some subs → occ st subs = 0.

(** ** Errors *)

(** The codes of connect-go the handlers use or may see on a stream. *)
Inductive Code :=
  | CodeCanceled
  | CodeUnknown
  | CodeInvalidArgument
  | CodeDeadlineExceeded
  | CodeAborted
  | CodeInternal
  | CodeUnavailable.

(** Go [error] values: [errors.New] texts, the two sentinel errors of
    package context, [fmt.Errorf] with verbs that do not wrap (its
    arguments kept beside the format), and [*connect.Error], which wraps
    its cause. *)
Inductive error :=
  | errorString (text : string)
  | Canceled
  | DeadlineExceeded
  | Errorf (format : string) (index : option nat) (cause : error)
  | connectError (code : Code) (underlying : error).

(** [connect.NewError] *)
Definition NewError (c : Code) (underlying : error) : error :=
  connectError c underlying.

(** [errors.As(err, &connectErr)] with [connectErr] a [*connect.Error]:
    only a [*connect.Error] unwraps, so the chain of any other error has
    length one; a nil [err] matches nothing. *)
Definition errors_As_connect (err : option error) : option error :=
  match err with
  | Some (connectError c u) => Some (connectError c u)
  | _ => None
  end.

(** [errors.Is(err, target)] for the two sentinel targets. *)
Fixpoint errors_Is_Canceled (err : error) : bool :=
  match err with
  | Canceled => true
  | connectError _ u => errors_Is_Canceled u
  | _ => false
  end.

Fixpoint errors_Is_DeadlineExceeded (err : error) : bool :=
  match err with
  | DeadlineExceeded => true
  | connectError _ u => errors_Is_DeadlineExceeded u
  | _ => false
  end.

(** ** Collaborators *)

(** [time.Duration] is an [int64] count of nanoseconds. *)
Definition Duration := Z.

(** What [stream.Receive()] yields until it returns false, and what
    [stream.Err()] reports afterwards. *)
Record ServerStreamForClient := mkClientStream {
  incoming : list SubscribeResponse;
  stream_Err : option error
}.

(** [ClientConfig] (config.go), the fields [NewClient] reads. *)
Record ClientConfig := mkClientConfig {
  Host : string;
  Port : Z;
  UseTLS : bool;
  InsecureTLS : bool;
  AuthEnabled : bool
}.

Record GroupAddressServiceClient := mkClient {
  client_config : ClientConfig
}.

(** The libraries and peers the core calls: the address codec of knx-go,
    [time.ParseDuration], the sinks of the RPC framework, the bus tunnel and
    the generated client. *)
Class Collaborators := {
  NewGroupAddrString : string → error + GroupAddr;
  NewIndividualAddrString : string → error + IndividualAddr;
  GroupAddr_String : GroupAddr → string;
  IndividualAddr_String : IndividualAddr → string;
  ParseDuration : string → error + Duration;
  (** [stream.Send(resp)] *)
  stream_Send : ServerStream → SubscribeResponse → option error;
  (** [stream.Conn().Peer().Addr] *)
  stream_Peer : ServerStream → string;
  (** [s.tunnel.Send(event)] *)
  tunnel_Send : GroupEvent → option error;
  (** [client.Subscribe(ctx, req)], [ctx] carrying the timeout if any *)
  client_Subscribe : GroupAddressServiceClient → option Duration →
                     SubscribeRequest → ServerStreamForClient * option error
}.

(** ** Effects *)

(** What a handler does to the outside, in order. *)
Inductive effect :=
  | StreamSend (sub : subscriber) (resp : SubscribeResponse)
  | LogError (err : error) (peer : string) (msg : string)
  | TunnelSend (event : GroupEvent).

(** Methods of [*Server] that act on the outside: the server state is
    threaded, the effects are collected. *)
Definition M (A : Type) : Type := Server → A * Server * list effect.

Definition ret {A} (a : A) : M A := λ s, (a, s, []).

Definition bind {A B} (m : M A) (k : A → M B) : M B :=
  λ s, let '(a, s1, t1) := m s in
       let '(b, s2, t2) := k a s1 in
       (b, s2, t1 ++ t2).

Definition get : M Server := λ s, (s, s, []).

Definition emit (e : effect) : M unit := λ s, ((), s, [e]).

Notation "x <~ m ;; k" := (bind m (λ x, k))
  (at level 100, m at next level, right associativity).
Notation "m ;;; k" := (bind m (λ _, k))
  (at level 100, right associativity).

(** [for _, x := range l { body }] *)
Fixpoint for_range {A} (l : list A) (body : A → M unit) : M unit :=
  match l with
  | [] => ret ()
  | x :: l => body x ;;; for_range l body
  end.

Definition result_of {A} (r : A * Server * list effect) : A := r.1.1.
Definition server_of {A} (r : A * Server * list effect) : Server := r.1.2.
Definition trace_of {A} (r : A * Server * list effect) : list effect := r.2.

(** [fmt.Errorf] with one error argument that may be nil. *)
Definition Errorf_nilable (format : string) (cause : option error) : error :=
  match cause with
  | Some err => Errorf format None err
  | None => Errorf format None (errorString "%!s(<nil>)")
  end.

(** Modelled from the spec: the response messages of knx/groupaddress/v1;
    the acknowledgement of Publish has no field. *)
Inductive PublishResponse := mkPublishResponse.

Record SubscribeUnaryResponse := mkSubscribeUnaryResponse {
  Messages : list SubscribeResponse
}.

(** [NewClient] (client.go) builds the client from the configuration and
    always returns a nil error. *)
Definition NewClient (config : ClientConfig)
    : GroupAddressServiceClient * option error :=
  ({| client_config := config |}, None).

(** Which case of the [select] of [Subscribe] fires: the context of the
    call, or the context of the server, with [s.ctx.Err()]. *)
Inductive wake :=
  | CallCtxDone
  | ServerCtxDone (cause : error).

Section Core.
Context `{C : Collaborators}.

(** ** helper.go: parseGroupAddresses *)

Fixpoint parse_from (i : nat) (addresses : list string)
    (parsed : list GroupAddr) : error + list GroupAddr :=
  match addresses with
  | [] => inr parsed
  | sga :: rest =>
      match NewGroupAddrString sga with
      | inl err => inl (Errorf "parse groupAddress(%d): %s" (Some i) err)
      | inr ga => parse_from (S i) rest (parsed ++ [ga])
      end
  end.

Definition parseGroupAddresses (addresses : list string)
    : error + list GroupAddr :=
  parse_from 0 addresses [].

(** ** mapper.go *)

Definition toV1SubscribeResponse (event : GroupEvent) : SubscribeResponse :=
  {| resp_GroupAddress := GroupAddr_String (Destination event);
     resp_PhysicalAddress := IndividualAddr_String (Source event);
     resp_Event :=
       if bool_decide (Command event = GroupRead) then Event_EVENT_READ
       else if bool_decide (Command event = GroupResponse) then Event_EVENT_RESPONSE
       else if bool_decide (Command event = GroupWrite) then Event_EVENT_WRITE
       else Event_EVENT_UNSPECIFIED;
     resp_Data := Data event |}.

Definition fromV1PublishRequest (r : PublishRequest) : error + GroupEvent :=
  match NewGroupAddrString (pub_GroupAddress r) with
  | inl err => inl (Errorf "parse groupAddress: %s" None err)
  | inr ga =>
      let command :=
        match pub_Event r with
        | Event_EVENT_READ => GroupRead
        | Event_EVENT_RESPONSE => GroupResponse
        | Event_EVENT_WRITE => GroupWrite
        | _ => GroupWrite
        end in
      let event := {| Command := command; Source := 0%N;
                      Destination := ga; Data := pub_Data r |} in
      if bool_decide (String.length (pub_PhysicalAddress r) = 0) then inr event
      else
        match NewIndividualAddrString (pub_PhysicalAddress r) with
        | inl err => inl (Errorf "parse physicalAddress: %s" None err)
        | inr src => inr {| Command := command; Source := src;
                            Destination := ga; Data := pub_Data r |}
        end
  end.

(** ** knx.go: the dispatcher *)

(** [sub.stream.Send(resp)] *)
Definition send (sub : subscriber) (resp : SubscribeResponse)
    : M (option error) :=
  emit (StreamSend sub resp) ;;; ret (stream_Send (stream sub) resp).

(** The kind filter of both loops: true when the loop continues without
    sending. *)
Definition not_interested (sub : subscriber) (resp : SubscribeResponse) : bool :=
  bool_decide (Event_of (req sub) ≠ Event_EVENT_UNSPECIFIED) &&
  bool_decide (Event_of (req sub) ≠ resp_Event resp).

(** The body of the loop of [dispatchToSubscribers] and, with another
    message, of [dispatchToSniffers]. *)
Definition dispatch_one (msg : string) (resp : SubscribeResponse)
    (sub : subscriber) : M unit :=
  if not_interested sub resp then ret ()
  else
    err <~ send sub resp ;;
    match err with
    | Some err => emit (LogError err (stream_Peer (stream sub)) msg)
    | None => ret ()
    end.

Definition dispatchToSubscribers (event : GroupEvent) : M (option error) :=
  s <~ get ;;
  match subscribers s !! Destination event with
  | None => ret None
  | Some subs =>
      let resp := toV1SubscribeResponse event in
      for_range subs
        (dispatch_one "unable to send response to subscriber" resp) ;;;
      ret None
  end.

Definition dispatchToSniffers (event : GroupEvent) : M (option error) :=
  s <~ get ;;
  if bool_decide (length (sniffers s) = 0) then ret None
  else
    let resp := toV1SubscribeResponse event in
    for_range (sniffers s)
      (dispatch_one "unable to send response to sniffer" resp) ;;;
    ret None.

Definition dispatchEvent (event : GroupEvent) : M (option error) :=
  err <~ dispatchToSubscribers event ;;
  match err with
  | Some err => ret (Some err)
  | None =>
      err <~ dispatchToSniffers event ;;
      match err with
      | Some err => ret (Some err)
      | None => ret None
      end
  end.

(** Which case of the [select] of [busMessageReader] fires, turn by turn. *)
Inductive reader_turn :=
  | CtxDone
  | Inbound (event : GroupEvent).

(** [busMessageReader] over the turns the scheduler gives it: [Some err] is
    its return value, [None] says that it is still blocked in the
    [select] when the turns are used up. *)
Fixpoint busMessageReader (turns : list reader_turn)
    : M (option (option error)) :=
  match turns with
  | [] => ret None
  | CtxDone :: _ => ret (Some None)
  | Inbound event :: turns =>
      err <~ dispatchEvent event ;;
      match err with
      | Some err => ret (Some (Some err))
      | None => busMessageReader turns
      end
  end.

(** ** rpcs.go *)

Definition Publish (r : PublishRequest) : M (error + PublishResponse) :=
  let res := mkPublishResponse in
  match fromV1PublishRequest r with
  | inl err => ret (inl (NewError CodeInvalidArgument err))
  | inr event =>
      (* write to bus *)
      err <~ (emit (TunnelSend event) ;;; ret (tunnel_Send event)) ;;
      match err with
      | Some err => ret (inl (NewError CodeInternal err))
      | None =>
          err <~ dispatchEvent event ;;
          match err with
          | Some err => ret (inl (NewError CodeInternal err))
          | None => ret (inr res)
          end
      end
  end.

(** [Subscribe]: [parked] is what the other calls do to the registry while
    this one blocks in its [select], [w] the case that wakes it. *)
Definition Subscribe (r : SubscribeRequest) (st : ServerStream)
    (parked : list registry_op) (w : wake) (s : Server)
    : option error * Server :=
  match parseGroupAddresses (GroupAddresses r) with
  | inl err => (Some (NewError CodeInvalidArgument err), s)
  | inr addresses =>
      let s :=
        if bool_decide (0 < length addresses)
        then registerSubscriber addresses r st s
        else registerSniffer r st s in
      (* block until any ctx is done *)
      let s := run_ops parked s in
      match w with
      | ServerCtxDone cause => (Some (NewError CodeAborted cause), s)
      | CallCtxDone =>
          let s :=
            if bool_decide (0 < length addresses)
            then unregisterSubscriber addresses st s
            else unregisterSniffer st s in
          (None, s)
      end
  end.

(** The registration half of [Subscribe], up to its [select]. *)
Definition Subscribe_register (s : Server)
    (call : SubscribeRequest * ServerStream) : Server :=
  match parseGroupAddresses (GroupAddresses call.1) with
  | inl err => s
  | inr addresses =>
      if bool_decide (0 < length addresses)
      then registerSubscriber addresses call.1 call.2 s
      else registerSniffer call.1 call.2 s
  end.

(** The receiver loop of [SubscribeUnary]. *)
Fixpoint receive_loop (for_ : string) (incoming : list SubscribeResponse)
    (messages : list SubscribeResponse) : list SubscribeResponse :=
  match incoming with
  | [] => messages
  | msg :: incoming =>
      let messages := messages ++ [msg] in
      (* if user provided no `for`, quit after first message *)
      if bool_decide (for_ = "") then messages
      else receive_loop for_ incoming messages
  end.

(** The input validation of [SubscribeUnary]: the timeout to put on the
    context, if the request names one. *)
Definition validate_for (for_ : string) : error + option Duration :=
  if bool_decide (for_ ≠ "") then
    match ParseDuration for_ with
    | inl err =>
        inl (NewError CodeInvalidArgument (Errorf "parsing 'for': %v" None err))
    | inr dur => inr (Some dur)
    end
  else inr None.

Definition SubscribeUnary (config : ClientConfig) (r : SubscribeUnaryRequest)
    : error + SubscribeUnaryResponse :=
  (* construct internal client *)
  let '(client, err) := NewClient config in
  match err with
  | Some err =>
      inl (NewError CodeInternal (Errorf "constructing client: %v" None err))
  | None =>
      match validate_for (For r) with
      | inl e => inl e
      | inr timeout =>
          (* open stream *)
          let '(stream, err) :=
            client_Subscribe client timeout (unary_SubscribeRequest r) in
          match err with
          | Some e => inl e
          | None =>
              (* start receiver loop *)
              let messages := receive_loop (For r) (incoming stream) [] in
              match errors_As_connect err with
              | Some connectErr =>
                  if negb (errors_Is_Canceled connectErr) &&
                     negb (errors_Is_DeadlineExceeded connectErr)
                  then inl (NewError CodeInternal
                              (Errorf_nilable "knxrpc stream closed: %s"
                                 (stream_Err stream)))
                  else inr {| Messages := messages |}
              | None => inr {| Messages := messages |}
              end
          end
      end
  end.

(** ** Views of a run *)

(** The handles a dispatch enumerates: the slice of the topic, then the
    sniffers. *)
Definition enumerated (s : Server) (event : GroupEvent) : list subscriber :=
  byTopic s (Destination event) ++ sniffers s.

(** The effects of one turn of a dispatch loop on a handle. *)
Definition turn_effects (msg : string) (resp : SubscribeResponse)
    (sub : subscriber) : list effect :=
  if not_interested sub resp then []
  else StreamSend sub resp ::
       match stream_Send (stream sub) resp with
       | Some err => [LogError err (stream_Peer (stream sub)) msg]
       | None => []
       end.

End Core.

(** The messages put on streams, in order. *)
Definition sends_of (t : list effect) : list (subscriber * SubscribeResponse) :=
  omap (λ e, match e with StreamSend sub resp => Some (sub, resp) | _ => None end) t.

(** The events put on the bus, in order. *)
Definition bus_sends_of (t : list effect) : list GroupEvent :=
  omap (λ e, match e with TunnelSend event => Some event | _ => None end) t.

(** ** A concrete set of collaborators

    A small world to run the handlers in: two group addresses parse, the
    stream at address 2 refuses every message, the tunnel refuses the
    events for 4/5/6, and the internal client yields two messages before
    its stream is closed by the server. *)

Definition demo_NewGroupAddrString (s : string) : error + GroupAddr :=
  if bool_decide (s = "1/2/3") then inr 2563%N
  else if bool_decide (s = "4/5/6") then inr 9478%N
  else inl (errorString "invalid group address").

Definition demo_GroupAddr_String (ga : GroupAddr) : string :=
  if bool_decide (ga = 2563%N) then "1/2/3"
  else if bool_decide (ga = 9478%N) then "4/5/6"
  else "0/0/0".

Definition demo_message (kind : Event) : SubscribeResponse :=
  {| resp_GroupAddress := "1/2/3"; resp_PhysicalAddress := "1.1.1";
     resp_Event := kind; resp_Data := [1%N] |}.

Definition demo_closed_by_server : error :=
  connectError CodeAborted (errorString "context canceled").

Definition demo_stream : ServerStreamForClient :=
  {| incoming := [demo_message Event_EVENT_WRITE; demo_message Event_EVENT_READ];
     stream_Err := Some demo_closed_by_server |}.

Definition demo : Collaborators := {|
  NewGroupAddrString := demo_NewGroupAddrString;
  NewIndividualAddrString := λ s,
    if bool_decide (s = "1.1.1") then inr 4353%N
    else inl (errorString "invalid individual address");
  GroupAddr_String := demo_GroupAddr_String;
  IndividualAddr_String := λ a,
    if bool_decide (a = 4353%N) then "1.1.1" else "0.0.0";
  ParseDuration := λ s,
    if bool_decide (s = "500ms") then inr 500000000%Z
    else inl (errorString "time: invalid duration");
  stream_Send := λ st resp,
    if bool_decide (st = 2) then Some (errorString "broken pipe") else None;
  stream_Peer := λ st, if bool_decide (st = 2) then "10.0.0.2" else "10.0.0.1";
  tunnel_Send := λ event,
    if bool_decide (Destination event = 9478%N)
    then Some (errorString "tunnel closed") else None;
  client_Subscribe := λ client timeout r, (demo_stream, None)
|}.

Definition demo_config : ClientConfig :=
  {| Host := "127.0.0.1"; Port := 8080; UseTLS := false;
     InsecureTLS := false; AuthEnabled := false |}.

Definition demo_request (topics : list string) (kind : Event)
    : SubscribeRequest :=
  {| GroupAddresses := topics; Event_of := kind |}.

Definition demo_calls : list (SubscribeRequest * ServerStream) :=
  [(demo_request ["1/2/3"; "1/2/3"] Event_EVENT_UNSPECIFIED, 1);
   (demo_request [] Event_EVENT_RESPONSE, 2);
   (demo_request ["4/5/6"; "1/2/3"] Event_EVENT_READ, 3)].

Definition demo_sub (kind : Event) (st : ServerStream) : subscriber :=
  {| req := demo_request ["1/2/3"] kind; stream := st |}.

Definition demo_sniffer (kind : Event) (st : ServerStream) : subscriber :=
  {| req := demo_request [] kind; stream := st |}.

(** Three subscribers of 1/2/3 and two sniffers; the streams at address 2
    refuse every message. *)
Definition demo_server : Server :=
  {| subscribers :=
       {[ 2563%N := [demo_sub Event_EVENT_UNSPECIFIED 1;
                     demo_sub Event_EVENT_READ 2;
                     demo_sub Event_EVENT_WRITE 3] ]};
     sniffers := [demo_sniffer Event_EVENT_UNSPECIFIED 2;
                  demo_sniffer Event_EVENT_RESPONSE 4] |}.

Definition demo_event (command : GroupCommand) : GroupEvent :=
  {| Command := command; Source := 4353%N; Destination := 2563%N;
     Data := [1%N] |}.

Definition demo_publish (topic : string) : PublishRequest :=
  {| pub_GroupAddress := topic; pub_PhysicalAddress := "1.1.1";
     pub_Event := Event_EVENT_WRITE; pub_Data := [1%N] |}.

Definition demo_unary (for_ : string) : SubscribeUnaryRequest :=
  {| unary_SubscribeRequest := demo_request [] Event_EVENT_UNSPECIFIED;
     For := for_ |}.

(** How often a topic is listed. *)
Definition times_listed (t : GroupAddr) (addresses : list GroupAddr) : nat :=
  length (filter (λ a, a = t) addresses).

(** What [unregisterSniffer] leaves of a slice, and [unregisterSubscriber]
    of the slice of one topic. *)
Definition remove_stream (st : ServerStream) (subs : list subscriber)
    : list subscriber :=
  if last_is st subs then drop_last subs else swap_remove st subs.

(** ** More of the repository *)

(** The events a reader dispatches: the inbound ones before its context is
    done. *)
Fixpoint before_done (turns : list reader_turn) : list GroupEvent :=
  match turns with
  | [] => []
  | CtxDone :: _ => []
  | Inbound event :: turns => event :: before_done turns
  end.

(** How many messages a run puts on one stream. *)
Definition sends_to (st : ServerStream) (t : list effect) : nat :=
  length (filter (λ p : subscriber * SubscribeResponse, stream p.1 = st)
            (sends_of t)).

(** *** Authentication (the auth file and client.go) *)

Record AuthConfig := mkAuthConfig {
  auth_Enabled : bool;
  auth_Header : string;
  auth_Scheme : string;
  auth_SecretKey : string
}.

Definition ErrInvalidAuthCredentials : error :=
  errorString "invalid auth credentials".

(** [AuthConfig.Validate] *)
Definition AuthConfig_Validate (c : AuthConfig) : option error :=
  if negb (auth_Enabled c) then None
  else if bool_decide (String.length (auth_Header c) = 0)
  then Some (errorString "missing server.auth.header")
  else if bool_decide (String.length (auth_SecretKey c) = 0)
  then Some (errorString "missing server.auth.secretKey")
  else None.

(** What is left of [s] after [prefix], if [s] starts with it. *)
Fixpoint strip_prefix (prefix s : string) : option string :=
  match prefix, s with
  | EmptyString, _ => Some s
  | String a prefix, String b s =>
      if bool_decide (a = b) then strip_prefix prefix s else None
  | String _ _, EmptyString => None
  end.

(** [strings.CutPrefix] *)
Definition strings_CutPrefix (s prefix : string) : string * bool :=
  match strip_prefix prefix s with
  | Some after => (after, true)
  | None => (s, false)
  end.

(** [strings.TrimSuffix] *)
Fixpoint strings_TrimSuffix (s suffix : string) : string :=
  match s with
  | EmptyString => EmptyString
  | String a rest =>
      if bool_decide (String a rest = suffix) then EmptyString
      else String a (strings_TrimSuffix rest suffix)
  end.

(** [subtle.ConstantTimeCompare]: 1 for equal contents, 0 otherwise. *)
Definition ConstantTimeCompare (x y : string) : Z :=
  if bool_decide (x = y) then 1%Z else 0%Z.

(** [strings.TrimSpace], whose notion of white space is Unicode's, is left
    to the library. *)
Class GoStrings := {
  strings_TrimSpace : string → string
}.

(** The errors of [authenticateRPC]: [authn.Errorf] and
    [connect.NewError(connect.CodeUnauthenticated, err)]. *)
Inductive auth_error :=
  | authn_Errorf (format : string) (arg : string)
  | Unauthenticated (err : error).

Section Auth.
Context `{G : GoStrings}.

(** [authenticateStaticSecretKey], on the auth section of the server
    configuration. *)
Definition authenticateStaticSecretKey (c : AuthConfig) (val : string)
    : option error :=
  (* strip scheme, trim space *)
  let '(val, _) := strings_CutPrefix val (auth_Scheme c +:+ " ") in
  let val := strings_TrimSpace val in
  if bool_decide (ConstantTimeCompare val (auth_SecretKey c) ≠ 1%Z)
  then Some ErrInvalidAuthCredentials
  else None.

(** [authenticateRPC]; [val] is what [req.Header.Get] returns for the
    configured header, empty when the header is missing. *)
Definition authenticateRPC (c : AuthConfig) (val : string)
    : option auth_error :=
  if bool_decide (String.length val = 0)
  then Some (authn_Errorf "missing %s header" (auth_Header c))
  else
    match authenticateStaticSecretKey c val with
    | Some err => Some (Unauthenticated err)
    | None => None
    end.

End Auth.

(** [headerInterceptor] and [NewAuthInterceptor] (client.go) *)
Record headerInterceptor := mkHeaderInterceptor {
  hi_name : string;
  hi_value : string
}.

Definition NewAuthInterceptor (c : AuthConfig) : headerInterceptor :=
  {| hi_name := auth_Header c;
     hi_value := (auth_Scheme c +:+ " ") +:+ auth_SecretKey c |}.

(** *** Configuration (config.go), the fields the validation reads *)

Record KNXConfig := mkKNXConfig {
  GatwewayHost : string;
  GatwewayPort : Z
}.

Record SwaggerConfig := mkSwaggerConfig {
  swagger_Enabled : bool;
  swagger_Path : string
}.

Record MetricsConfig := mkMetricsConfig {
  metrics_Enabled : bool;
  metrics_Path : string;
  metrics_Auth : AuthConfig
}.

Record WebserverConfig := mkWebserverConfig {
  web_Enabled : bool;
  web_Host : string;
  web_Port : Z;
  web_Swagger : SwaggerConfig;
  web_Metrics : MetricsConfig
}.

Record RPCConfig := mkRPCConfig {
  rpc_Auth : AuthConfig;
  rpc_Webserver : WebserverConfig
}.

Record Config := mkConfig {
  KNX : KNXConfig;
  RPC : RPCConfig
}.

Definition KNXConfig_Validate (c : KNXConfig) : option error :=
  if bool_decide (String.length (GatwewayHost c) = 0)
  then Some (errorString "missing knx.gatewayHost")
  else if bool_decide (GatwewayPort c = 0%Z)
  then Some (errorString "missing knx.gatewayPort")
  else None.

Definition SwaggerConfig_Validate (c : SwaggerConfig) : option error :=
  if negb (swagger_Enabled c) then None
  else if bool_decide (String.length (swagger_Path c) = 0)
  then Some (errorString "missing webserver.swagger.path")
  else None.

Definition MetricsConfig_Validate (c : MetricsConfig) : option error :=
  if negb (metrics_Enabled c) then None
  else if bool_decide (String.length (metrics_Path c) = 0)
  then Some (errorString "missing webserver.metrics.path")
  else
    match AuthConfig_Validate (metrics_Auth c) with
    | Some err => Some err
    | None => None
    end.

Definition WebserverConfig_Validate (c : WebserverConfig) : option error :=
  if negb (web_Enabled c) then None
  else if bool_decide (String.length (web_Host c) = 0)
  then Some (errorString "missing webserver.host")
  else if bool_decide (web_Port c = 0%Z)
  then Some (errorString "missing webserver.port")
  else
    match SwaggerConfig_Validate (web_Swagger c) with
    | Some err => Some err
    | None =>
        match MetricsConfig_Validate (web_Metrics c) with
        | Some err => Some err
        | None => None
        end
    end.

(** [RPCConfig.Validate] validates the auth section, twice. *)
Definition RPCConfig_Validate (c : RPCConfig) : option error :=
  match AuthConfig_Validate (rpc_Auth c) with
  | Some err => Some err
  | None =>
      match AuthConfig_Validate (rpc_Auth c) with
      | Some err => Some err
      | None => None
      end
  end.

Definition Config_Validate (c : Config) : option error :=
  match KNXConfig_Validate (KNX c) with
  | Some err => Some err
  | None =>
      match RPCConfig_Validate (RPC c) with
      | Some err => Some err
      | None => None
      end
  end.

(** *** The log handler of the bus library (knx.go) *)

(** The Go string with the one character [\n]. *)
Definition newline : string := String "010"%char EmptyString.

(** [knxLogHandler.Printf]: the format it logs at trace level, and whether
    it cancels the context of the server. *)
Definition knxLogHandler_Printf (format : string) : string * bool :=
  let format := strings_TrimSuffix format newline in
  (format, bool_decide (format = "Worker exited")).

(** *** The command line (cmd/knxrpc/main.go) *)

(** The switch on [--event] of the subscribe command. *)
Definition subscribe_event_filter (eventFilter : string) : error + Event :=
  if bool_decide (eventFilter = "") then inr Event_EVENT_UNSPECIFIED
  else if bool_decide (eventFilter = "read") then inr Event_EVENT_READ
  else if bool_decide (eventFilter = "write") then inr Event_EVENT_WRITE
  else if bool_decide (eventFilter = "response") then inr Event_EVENT_RESPONSE
  else inl (Errorf "unsupported event filter: %s" None (errorString eventFilter)).

(** The switch on [--event] of the publish command; [args] are its
    positional arguments. *)
Definition publish_event_type (eventType : string) (args : list string)
    : error + Event :=
  if bool_decide (eventType = "") then
    if bool_decide (1 < length args)
    then inr Event_EVENT_WRITE   (* send write event by default if data was given *)
    else inr Event_EVENT_READ
  else if bool_decide (eventType = "read") then inr Event_EVENT_READ
  else if bool_decide (eventType = "write") then inr Event_EVENT_WRITE
  else if bool_decide (eventType = "response") then inr Event_EVENT_RESPONSE
  else inl (Errorf "unsupported event type: %s" None (errorString eventType)).

(** A [strings.TrimSpace] for the concrete world: it trims blanks. *)
Fixpoint demo_trim_left (s : string) : string :=
  match s with
  | String " "%char rest => demo_trim_left rest
  | _ => s
  end.

Definition demo_strings : GoStrings :=
  {| strings_TrimSpace := λ s,
       String.rev (demo_trim_left (String.rev (demo_trim_left s))) |}.

Definition demo_auth : AuthConfig :=
  {| auth_Enabled := true; auth_Header := "Authorization";
     auth_Scheme := "Bearer"; auth_SecretKey := "CHANGEME" |}.

(** * Properties *)

(** ** Slices *)

Lemma occ_app st l1 l2 : occ st (l1 ++ l2) = occ st l1 + occ st l2.
Proof. unfold occ. by rewrite filter_app, length_app. Qed.

Lemma occ_singleton st x :
  occ st [x] = if bool_decide (stream x = st) then 1 else 0.
Proof.
  unfold occ. rewrite filter_cons, filter_nil.
  case_decide; case_bool_decide; done.
Qed.

Lemma occ_Permutation st l1 l2 : l1 ≡ₚ l2 → occ st l1 = occ st l2.
Proof. unfold occ. by intros ->. Qed.

Lemma occ_cons st x l :
  occ st (x :: l) = (if bool_decide (stream x = st) then 1 else 0) + occ st l.
Proof.
  unfold occ. rewrite filter_cons.
  case_decide; case_bool_decide; done.
Qed.

Lemma last_is_snoc st subs :
  last_is st subs = true →
  ∃ l, subs = drop_last subs ++ [l] ∧ stream l = st.
Proof.
  unfold last_is, drop_last. destruct (last subs) as [l|] eqn:Hl; [|done].
  intros Hst%bool_decide_eq_true. apply last_Some in Hl as [l' ->].
  exists l. split; [|done].
  rewrite length_app. simpl.
  replace (length l' + 1 - 1) with (length l') by lia.
  by rewrite take_app_length.
Qed.

Lemma find_stream_Some st subs i :
  find_stream st subs = Some i →
  ∃ x, subs !! i = Some x ∧ stream x = st.
Proof.
  revert i. induction subs as [|sub rest IH]; intros i; simpl; [done|].
  case_bool_decide as Hs.
  - intros [= <-]. by exists sub.
  - destruct (find_stream st rest) as [j|]; simpl; [|done].
    intros [= <-]. by apply IH.
Qed.

Lemma find_stream_None st subs :
  find_stream st subs = None → occ st subs = 0.
Proof.
  induction subs as [|sub rest IH]; simpl; [done|].
  case_bool_decide as Hs; [done|].
  destruct (find_stream st rest); simpl; [done|].
  intros _. rewrite occ_cons, bool_decide_eq_false_2 by done. by apply IH.
Qed.

(** Replacing the element at [i] by the last one and dropping the last
    removes exactly the element at [i], up to the order. *)
Lemma swap_drop_Permutation (subs : list subscriber) i x l :
  subs !! i = Some x → last subs = Some l →
  x :: drop_last (<[i := l]> subs) ≡ₚ subs.
Proof.
  intros Hi Hl. apply last_Some in Hl as [l' ->].
  unfold drop_last. rewrite length_insert, length_app. simpl.
  replace (length l' + 1 - 1) with (length l') by lia.
  destruct (decide (i < length l')) as [Hlt|Hge].
  - rewrite insert_app_l by done.
    rewrite take_app_length' by (by rewrite length_insert).
    rewrite lookup_app_l in Hi by done.
    rewrite insert_take_drop by done.
    rewrite <- (take_drop_middle l' i x) at 3 by done.
    solve_Permutation.
  - apply lookup_lt_Some in Hi as Hlen. rewrite length_app in Hlen.
    simpl in Hlen. assert (i = length l') as -> by lia.
    rewrite list_lookup_middle in Hi by done. injection Hi as <-.
    rewrite insert_app_r_alt by lia. rewrite Nat.sub_diag. simpl.
    rewrite take_app_length. apply Permutation_cons_append.
Qed.

Lemma remove_stream_absent st subs :
  occ st subs = 0 → remove_stream st subs = subs.
Proof.
  intros Hocc. unfold remove_stream.
  destruct (last_is st subs) eqn:Hlast.
  - apply last_is_snoc in Hlast as (l & Heq & Hst).
    rewrite Heq, occ_app, occ_singleton in Hocc.
    rewrite bool_decide_eq_true_2 in Hocc by done. lia.
  - unfold swap_remove. destruct (find_stream st subs) as [i|] eqn:Hf; [|done].
    apply find_stream_Some in Hf as (x & Hi & Hst).
    apply list_elem_of_lookup_2 in Hi. apply list_elem_of_split in Hi as (l1 & l2 & ->).
    rewrite occ_app, occ_cons, bool_decide_eq_true_2 in Hocc by done. lia.
Qed.

Lemma remove_stream_present st subs :
  0 < occ st subs →
  ∃ x, stream x = st ∧ x :: remove_stream st subs ≡ₚ subs.
Proof.
  intros Hocc. unfold remove_stream.
  destruct (last_is st subs) eqn:Hlast.
  - apply last_is_snoc in Hlast as (l & Heq & Hst).
    exists l. split; [done|]. rewrite Heq at 2. apply Permutation_cons_append.
  - unfold swap_remove. destruct (find_stream st subs) as [i|] eqn:Hf.
    + apply find_stream_Some in Hf as (x & Hi & Hst).
      destruct (last subs) as [l|] eqn:Hl.
      * exists x. split; [done|]. by apply swap_drop_Permutation.
      * apply last_None in Hl. by subst.
    + apply find_stream_None in Hf. lia.
Qed.

(** Unregistering removes one occurrence of the stream, if there is one,
    and none of any other stream. *)
Lemma occ_remove_stream h st subs :
  occ h (remove_stream st subs) =
  if bool_decide (h = st) then pred (occ h subs) else occ h subs.
Proof.
  destruct (decide (0 < occ st subs)) as [Hpos|Hzero].
  - apply remove_stream_present in Hpos as (x & Hst & Hperm).
    rewrite <- (occ_Permutation h _ _ Hperm), occ_cons, Hst.
    case_bool_decide as H1; case_bool_decide as H2; try done; by subst.
  - rewrite remove_stream_absent by lia.
    case_bool_decide; [subst; lia | done].
Qed.

Lemma swap_remove_nonempty st subs :
  subs ≠ [] → last_is st subs = false → swap_remove st subs ≠ [].
Proof.
  intros Hne Hlast Hnil.
  destruct (decide (0 < occ st subs)) as [Hpos|Hzero].
  - apply remove_stream_present in Hpos as (x & Hst & Hperm).
    unfold remove_stream in Hperm. rewrite Hlast, Hnil in Hperm.
    symmetry in Hperm. apply Permutation_singleton_r in Hperm. subst subs.
    unfold last_is in Hlast. simpl in Hlast.
    by rewrite bool_decide_eq_true_2 in Hlast.
  - pose proof (remove_stream_absent st subs) as Habs.
    unfold remove_stream in Habs. rewrite Hlast, Hnil in Habs.
    symmetry in Habs. apply Hne, Habs. lia.
Qed.

Lemma drop_last_nil subs : length (drop_last subs) = 0 → drop_last subs = [].
Proof. by intros ?%nil_length_inv. Qed.

(** ** The topic map *)

Lemma lookup_register_address r st (m : gmap GroupAddr (list subscriber)) a t :
  default [] (register_address r st m a !! t) =
  if bool_decide (t = a)
  then default [] (m !! a) ++ [{| req := r; stream := st |}]
  else default [] (m !! t).
Proof.
  unfold register_address. case_bool_decide as Ht.
  - subst. rewrite lookup_insert_eq. simpl. by destruct (m !! a).
  - by rewrite lookup_insert_ne.
Qed.

Lemma lookup_unregister_address st (m : gmap GroupAddr (list subscriber)) a t :
  default [] (unregister_address st m a !! t) =
  if bool_decide (t = a) then remove_stream st (default [] (m !! a))
  else default [] (m !! t).
Proof.
  unfold unregister_address, remove_stream.
  destruct (m !! a) as [subs|] eqn:Ha; simpl.
  - destruct (last_is st subs) eqn:Hlast.
    + case_bool_decide as Hlen; case_bool_decide as Ht; subst;
        rewrite ?lookup_insert_eq, ?lookup_delete_eq; simpl;
        rewrite ?lookup_insert_ne, ?lookup_delete_ne by done; try done.
      symmetry. apply drop_last_nil. lia.
    + case_bool_decide as Ht; subst.
      * by rewrite lookup_insert_eq.
      * by rewrite lookup_insert_ne.
  - case_bool_decide; subst; [by rewrite Ha|done].
Qed.

Lemma register_address_no_empty r st m a :
  no_empty_entry m → no_empty_entry (register_address r st m a).
Proof.
  intros Hm t subs. unfold register_address.
  destruct (decide (t = a)) as [->|Hne].
  - rewrite lookup_insert_eq. intros [= <-]. by destruct (m !! a) as [[|??]|].
  - rewrite lookup_insert_ne by done. apply Hm.
Qed.

Lemma unregister_address_no_empty st m a :
  no_empty_entry m → no_empty_entry (unregister_address st m a).
Proof.
  intros Hm t subs. unfold unregister_address.
  destruct (m !! a) as [old|] eqn:Ha; [|apply Hm].
  destruct (last_is st old) eqn:Hlast.
  - case_bool_decide as Hlen.
    + destruct (decide (t = a)) as [->|Hne].
      * rewrite lookup_insert_eq. intros [= <-] Hnil. rewrite Hnil in Hlen.
        simpl in Hlen. lia.
      * rewrite lookup_insert_ne by done. apply Hm.
    + destruct (decide (t = a)) as [->|Hne].
      * by rewrite lookup_delete_eq.
      * rewrite lookup_delete_ne by done. apply Hm.
  - destruct (decide (t = a)) as [->|Hne].
    + rewrite lookup_insert_eq. intros [= <-].
      apply swap_remove_nonempty; [by eapply Hm|done].
    + rewrite lookup_insert_ne by done. apply Hm.
Qed.

Lemma foldl_register_no_empty r st addresses m :
  no_empty_entry m →
  no_empty_entry (foldl (register_address r st) m addresses).
Proof.
  revert m. induction addresses as [|a rest IH]; intros m Hm; simpl; [done|].
  by apply IH, register_address_no_empty.
Qed.

Lemma foldl_unregister_no_empty st addresses m :
  no_empty_entry m →
  no_empty_entry (foldl (unregister_address st) m addresses).
Proof.
  revert m. induction addresses as [|a rest IH]; intros m Hm; simpl; [done|].
  by apply IH, unregister_address_no_empty.
Qed.

Lemma times_listed_cons t a rest :
  times_listed t (a :: rest) =
  (if bool_decide (t = a) then 1 else 0) + times_listed t rest.
Proof.
  unfold times_listed. rewrite filter_cons.
  case_decide; case_bool_decide; try done; by subst.
Qed.

(** Registering a stream for a list of topics adds it to the slice of a
    topic once for every time the list names the topic. *)
Lemma occ_foldl_register h r st addresses (m : gmap GroupAddr (list subscriber)) t :
  occ h (default [] (foldl (register_address r st) m addresses !! t)) =
  occ h (default [] (m !! t)) +
  (if bool_decide (st = h) then times_listed t addresses else 0).
Proof.
  revert m. induction addresses as [|a rest IH]; intros m; simpl.
  - case_bool_decide; unfold times_listed; simpl; lia.
  - rewrite IH, lookup_register_address, times_listed_cons.
    destruct (decide (t = a)) as [->|Ht].
    + rewrite !bool_decide_eq_true_2 by done.
      rewrite occ_app, occ_singleton. simpl.
      case_bool_decide; lia.
    + rewrite !(bool_decide_eq_false_2 (t = a)) by done.
      case_bool_decide; lia.
Qed.

(** Unregistering a stream for a list of topics takes it from the slice of
    a topic once for every time the list names the topic, as far as it is
    there, and leaves the other streams. *)
Lemma occ_foldl_unregister h st addresses (m : gmap GroupAddr (list subscriber)) t :
  occ h (default [] (foldl (unregister_address st) m addresses !! t)) =
  if bool_decide (h = st)
  then occ h (default [] (m !! t)) - times_listed t addresses
  else occ h (default [] (m !! t)).
Proof.
  revert m. induction addresses as [|a rest IH]; intros m; simpl.
  - case_bool_decide; unfold times_listed; simpl; lia.
  - rewrite IH, lookup_unregister_address, times_listed_cons.
    destruct (decide (t = a)) as [->|Ht].
    + rewrite !(bool_decide_eq_true_2 (a = a)) by done.
      rewrite occ_remove_stream. case_bool_decide; lia.
    + rewrite !(bool_decide_eq_false_2 (t = a)) by done.
      case_bool_decide; lia.
Qed.

Lemma stream_free_alt h (m : gmap GroupAddr (list subscriber)) :
  stream_free h m ↔ ∀ t, occ h (default [] (m !! t)) = 0.
Proof.
  split.
  - intros Hfree t. destruct (m !! t) as [subs|] eqn:Ht; simpl; [|done].
    by eapply Hfree.
  - intros Hocc t subs Ht. specialize (Hocc t). by rewrite Ht in Hocc.
Qed.

(** ** Registry operations of the other calls *)

Lemma apply_op_no_empty o s :
  no_empty_entry (subscribers s) → no_empty_entry (subscribers (apply_op s o)).
Proof.
  destruct o; simpl; try done.
  - apply foldl_register_no_empty.
  - apply foldl_unregister_no_empty.
Qed.

Lemma run_ops_no_empty ops s :
  no_empty_entry (subscribers s) → no_empty_entry (subscribers (run_ops ops s)).
Proof.
  revert s. induction ops as [|o ops IH]; intros s Hs; simpl; [done|].
  by apply IH, apply_op_no_empty.
Qed.

(** Every registry state the operations reach from [New] keeps no empty
    slice. *)
Lemma reachable_no_empty ops :
  no_empty_entry (subscribers (run_ops ops New)).
Proof. apply run_ops_no_empty. intros t subs. simpl. by rewrite lookup_empty. Qed.

Lemma apply_op_occ_topic h o s t :
  op_stream o ≠ h → occ h (byTopic (apply_op s o) t) = occ h (byTopic s t).
Proof.
  unfold byTopic. destruct o; simpl; intros Hne; try done.
  - rewrite occ_foldl_register, bool_decide_eq_false_2 by done. lia.
  - rewrite occ_foldl_unregister, bool_decide_eq_false_2; done.
Qed.

Lemma apply_op_occ_sniffers h o s :
  op_stream o ≠ h → occ h (sniffers (apply_op s o)) = occ h (sniffers s).
Proof.
  destruct o; simpl; intros Hne; try done.
  - rewrite occ_app, occ_singleton. simpl.
    rewrite bool_decide_eq_false_2 by done. lia.
  - fold (remove_stream st (sniffers s)).
    rewrite occ_remove_stream, bool_decide_eq_false_2; done.
Qed.

Lemma run_ops_occ_topic h ops s t :
  Forall (λ o, op_stream o ≠ h) ops →
  occ h (byTopic (run_ops ops s) t) = occ h (byTopic s t).
Proof.
  intros Hops. revert s. induction Hops as [|o ops Ho _ IH]; intros s; [done|].
  simpl. by rewrite IH, apply_op_occ_topic.
Qed.

Lemma run_ops_occ_sniffers h ops s :
  Forall (λ o, op_stream o ≠ h) ops →
  occ h (sniffers (run_ops ops s)) = occ h (sniffers s).
Proof.
  intros Hops. revert s. induction Hops as [|o ops Ho _ IH]; intros s; [done|].
  simpl. by rewrite IH, apply_op_occ_sniffers.
Qed.

(** Unregistering a stream from a registry that holds it for exactly the
    topics of the list leaves no empty slice and no occurrence of the
    stream. *)
Lemma unregister_registered_exactly T h s :
  no_empty_entry (subscribers s) →
  (∀ t, occ h (byTopic s t) = times_listed t T) →
  no_empty_entry (subscribers (unregisterSubscriber T h s)) ∧
  stream_free h (subscribers (unregisterSubscriber T h s)).
Proof.
  intros Hne Hreg. split.
  - by apply foldl_unregister_no_empty.
  - apply stream_free_alt. intros t. simpl.
    rewrite occ_foldl_unregister, bool_decide_eq_true_2 by done.
    specialize (Hreg t). unfold byTopic in Hreg. lia.
Qed.

(** C4. For every list of topics T and stream h: registering h for T in a
    registry state without empty slice in which h does not occur makes a
    state in which h is registered for exactly T, and it stays one whatever
    the other calls do to the registry; and starting from any registry
    state without empty slice in which h is registered for exactly T,
    unregistering h for T leaves the topic map with no empty slice and with
    no occurrence of h. So registering h for T and later unregistering h
    for T leaves neither an empty slice nor h. *)
Theorem register_then_unregister (T : list GroupAddr) (h : ServerStream) :
  (∀ s, no_empty_entry (subscribers s) →
     (∀ t, occ h (byTopic s t) = times_listed t T) →
     no_empty_entry (subscribers (unregisterSubscriber T h s)) ∧
     stream_free h (subscribers (unregisterSubscriber T h s))) ∧
  (∀ r ops s0,
     no_empty_entry (subscribers s0) →
     stream_free h (subscribers s0) →
     Forall (λ o, op_stream o ≠ h) ops →
     let s1 := run_ops ops (registerSubscriber T r h s0) in
     let s2 := unregisterSubscriber T h s1 in
     (∀ t, occ h (byTopic s1 t) = times_listed t T) ∧
     no_empty_entry (subscribers s2) ∧
     stream_free h (subscribers s2)).
Proof.
  split; [intros s; apply unregister_registered_exactly|].
  intros r ops s0 Hne Hfree Hops s1 s2.
  assert (∀ t, occ h (byTopic s1 t) = times_listed t T) as Hreg.
  { intros t. unfold s1. rewrite run_ops_occ_topic by done.
    unfold byTopic. simpl.
    rewrite occ_foldl_register, bool_decide_eq_true_2 by done.
    apply stream_free_alt with (t := t) in Hfree. lia. }
  split; [done|].
  apply unregister_registered_exactly; [|done].
  by apply run_ops_no_empty, foldl_register_no_empty.
Qed.

Lemma register_then_unregister_witness :
  let r := demo_request ["1/2/3"; "4/5/6"; "1/2/3"] Event_EVENT_READ in
  let other := demo_sub Event_EVENT_UNSPECIFIED 7 in
  let T := [2563%N; 9478%N; 2563%N] in
  let ops := [OpRegisterSubscriber [2563%N] (req other) 3;
              OpUnregisterSubscriber [2563%N] 7;
              OpRegisterSniffer (req other) 4] in
  let s0 := {| subscribers := {[ 2563%N := [other] ]}; sniffers := [] |} in
  let s1 := run_ops ops (registerSubscriber T r 1 s0) in
  let s2 := unregisterSubscriber T 1 s1 in
  no_empty_entry (subscribers s0) ∧
  stream_free 1 (subscribers s0) ∧
  Forall (λ o, op_stream o ≠ 1) ops ∧
  (∀ t, occ 1 (byTopic s1 t) = times_listed t T) ∧
  no_empty_entry (subscribers s2) ∧
  stream_free 1 (subscribers s2) ∧
  stream_free 7 (subscribers (unregisterSubscriber [2563%N] 7 s0)).
Proof.
  intros r other T ops s0 s1 s2.
  assert (no_empty_entry (subscribers s0)) as H1.
  { intros t subs Ht. simpl in Ht.
    apply lookup_singleton_Some in Ht as [_ <-]. done. }
  assert (stream_free 1 (subscribers s0)) as H2.
  { intros t subs Ht. simpl in Ht.
    apply lookup_singleton_Some in Ht as [_ <-]. reflexivity. }
  assert (Forall (λ o, op_stream o ≠ 1) ops) as H3.
  { repeat constructor; simpl; lia. }
  split; [exact H1|]. split; [exact H2|]. split; [exact H3|].
  destruct (proj2 (register_then_unregister T 1) r ops s0 H1 H2 H3)
    as (Hreg & Hne & Hfree).
  split; [exact Hreg|]. split; [exact Hne|]. split; [exact Hfree|].
  refine (proj2 (proj1 (register_then_unregister [2563%N] 7) s0 H1 _)).
  intros t. unfold byTopic, s0. simpl.
  destruct (decide (t = 2563%N)) as [->|Hne'].
  - by rewrite lookup_singleton_eq.
  - rewrite lookup_singleton_ne by done. unfold times_listed.
    rewrite filter_cons, decide_False by done. done.
Defined.

Section Properties.
Context `{C : Collaborators}.

(** ** Registration by Subscribe *)

Lemma parse_from_length i addresses parsed addrs :
  parse_from i addresses parsed = inr addrs →
  length addrs = length parsed + length addresses.
Proof.
  revert i parsed. induction addresses as [|sga rest IH]; intros i parsed; simpl.
  - intros [= <-]. lia.
  - destruct (NewGroupAddrString sga) as [err|ga]; [done|].
    intros Hrest%IH. rewrite length_app in Hrest. simpl in Hrest. lia.
Qed.

Lemma parseGroupAddresses_nil addresses addrs :
  parseGroupAddresses addresses = inr addrs →
  addrs = [] ↔ addresses = [].
Proof.
  intros Hlen%parse_from_length. simpl in Hlen.
  split; intros ->; simpl in Hlen; by apply nil_length_inv.
Qed.

Lemma Subscribe_register_occ_topic h s r st addrs t :
  parseGroupAddresses (GroupAddresses r) = inr addrs →
  occ h (byTopic (Subscribe_register s (r, st)) t) =
  occ h (byTopic s t) + (if bool_decide (st = h) then times_listed t addrs else 0).
Proof.
  intros Hparse. unfold Subscribe_register. simpl. rewrite Hparse.
  case_bool_decide as Hlen.
  - unfold byTopic. simpl. apply occ_foldl_register.
  - assert (addrs = []) as -> by (apply nil_length_inv; lia).
    unfold byTopic, times_listed. simpl. case_bool_decide; lia.
Qed.

Lemma Subscribe_register_occ_sniffers h s r st addrs :
  parseGroupAddresses (GroupAddresses r) = inr addrs →
  occ h (sniffers (Subscribe_register s (r, st))) =
  occ h (sniffers s) +
  (if bool_decide (st = h) then if bool_decide (addrs = []) then 1 else 0 else 0).
Proof.
  intros Hparse. unfold Subscribe_register. simpl. rewrite Hparse.
  case_bool_decide as Hlen; simpl.
  - rewrite (bool_decide_eq_false_2 (addrs = [])); [case_bool_decide; lia|].
    intros ->. simpl in Hlen. lia.
  - assert (addrs = []) as -> by (apply nil_length_inv; lia).
    rewrite occ_app, occ_singleton. simpl.
    repeat case_bool_decide; done.
Qed.

(** The calls of other streams leave the occurrences of a stream alone. *)
Lemma Subscribe_register_other h s call :
  call.2 ≠ h →
  (∀ t, occ h (byTopic (Subscribe_register s call) t) = occ h (byTopic s t)) ∧
  occ h (sniffers (Subscribe_register s call)) = occ h (sniffers s).
Proof.
  destruct call as [r st]. simpl. intros Hne.
  destruct (parseGroupAddresses (GroupAddresses r)) as [err|addrs] eqn:Hparse.
  - unfold Subscribe_register. simpl. by rewrite Hparse.
  - split; [intros t|].
    + rewrite (Subscribe_register_occ_topic _ _ _ _ addrs) by done.
      rewrite bool_decide_eq_false_2 by done. lia.
    + rewrite (Subscribe_register_occ_sniffers _ _ _ _ addrs) by done.
      rewrite bool_decide_eq_false_2 by done. lia.
Qed.

Lemma register_calls_other h calls s :
  h ∉ calls.*2 →
  (∀ t, occ h (byTopic (foldl Subscribe_register s calls) t) = occ h (byTopic s t)) ∧
  occ h (sniffers (foldl Subscribe_register s calls)) = occ h (sniffers s).
Proof.
  revert s. induction calls as [|call rest IH]; intros s Hnotin; simpl; [done|].
  rewrite fmap_cons, not_elem_of_cons in Hnotin. destruct Hnotin as [Hne Hrest].
  destruct (IH (Subscribe_register s call) Hrest) as [IHt IHs].
  destruct (Subscribe_register_other h s call) as [Ht Hs]; [done|].
  split; [intros t; by rewrite IHt, Ht | by rewrite IHs, Hs].
Qed.

Lemma register_calls_occ calls s r h addrs :
  NoDup calls.*2 → (r, h) ∈ calls →
  parseGroupAddresses (GroupAddresses r) = inr addrs →
  (∀ t, occ h (byTopic (foldl Subscribe_register s calls) t) =
        occ h (byTopic s t) + times_listed t addrs) ∧
  occ h (sniffers (foldl Subscribe_register s calls)) =
  occ h (sniffers s) + (if bool_decide (addrs = []) then 1 else 0).
Proof.
  intros Hnodup Hin Hparse. revert s Hnodup Hin.
  induction calls as [|call rest IH]; intros s Hnodup Hin; simpl.
  { by apply elem_of_nil in Hin. }
  rewrite fmap_cons in Hnodup. apply NoDup_cons in Hnodup as [Hfresh Hnodup].
  apply elem_of_cons in Hin as [<-|Hin].
  - simpl in Hfresh.
    destruct (register_calls_other h rest (Subscribe_register s (r, h)) Hfresh)
      as [Ht Hs].
    split; [intros t; rewrite Ht | rewrite Hs].
    + rewrite (Subscribe_register_occ_topic _ _ _ _ addrs) by done.
      by rewrite bool_decide_eq_true_2.
    + rewrite (Subscribe_register_occ_sniffers _ _ _ _ addrs) by done.
      by rewrite bool_decide_eq_true_2.
  - destruct (IH (Subscribe_register s call) Hnodup Hin) as [Ht Hs].
    assert (call.2 ≠ h) as Hne.
    { intros Heq. apply Hfresh. rewrite Heq.
      apply (list_elem_of_fmap_2 snd _ _ Hin). }
    destruct (Subscribe_register_other h s call Hne) as [Ht' Hs'].
    split; [intros t; by rewrite Ht, Ht' | by rewrite Hs, Hs'].
Qed.

(** C3, amended. After any sequence of registrations by Subscribe calls,
    each with a stream of its own: the stream of a call occurs in the slice
    of a topic t as often as the request of the call lists t (once for a
    topic listed once, not at all for a topic not listed), and it occurs in
    the sniffers, exactly once, if and only if the request lists zero
    topics. *)
Theorem registered_as_often_as_listed
    (calls : list (SubscribeRequest * ServerStream))
    (r : SubscribeRequest) (h : ServerStream) (addrs : list GroupAddr) :
  NoDup calls.*2 → (r, h) ∈ calls →
  parseGroupAddresses (GroupAddresses r) = inr addrs →
  let s := foldl Subscribe_register New calls in
  (∀ t, occ h (byTopic s t) = times_listed t addrs) ∧
  (0 < occ h (sniffers s) ↔ GroupAddresses r = []) ∧
  occ h (sniffers s) ≤ 1.
Proof.
  intros Hnodup Hin Hparse s.
  destruct (register_calls_occ calls New r h addrs Hnodup Hin Hparse) as [Ht Hs].
  fold s in Ht, Hs. split; [|split].
  - intros t. by rewrite Ht.
  - rewrite Hs. simpl. rewrite <- (parseGroupAddresses_nil _ _ Hparse).
    case_bool_decide; split; (done || lia).
  - rewrite Hs. simpl. case_bool_decide; lia.
Qed.

End Properties.

(** ** Runs in the concrete world *)

Lemma registered_as_often_as_listed_witness :
  let r := demo_request ["1/2/3"; "1/2/3"] Event_EVENT_UNSPECIFIED in
  let s := foldl (Subscribe_register (C := demo)) New demo_calls in
  NoDup demo_calls.*2 ∧ (r, 1) ∈ demo_calls ∧
  parseGroupAddresses (C := demo) (GroupAddresses r) = inr [2563%N; 2563%N] ∧
  (∀ t, occ 1 (byTopic s t) = times_listed t [2563%N; 2563%N]) ∧
  (0 < occ 1 (sniffers s) ↔ GroupAddresses r = []) ∧
  occ 1 (sniffers s) ≤ 1.
Proof.
  intros r s.
  assert (NoDup demo_calls.*2) as H1.
  { apply NoDup_ListNoDup. repeat constructor; simpl; lia. }
  assert ((r, 1) ∈ demo_calls) as H2 by (left).
  assert (parseGroupAddresses (C := demo) (GroupAddresses r)
          = inr [2563%N; 2563%N]) as H3 by reflexivity.
  split; [exact H1|]. split; [exact H2|]. split; [exact H3|].
  exact (registered_as_often_as_listed (C := demo) demo_calls r 1
           [2563%N; 2563%N] H1 H2 H3).
Defined.

(** C3, as stated, fails for a request that lists a topic twice: its stream
    is in the slice of that topic twice, not once. *)
Lemma topic_listed_twice_registered_twice :
  let r := demo_request ["1/2/3"; "1/2/3"] Event_EVENT_UNSPECIFIED in
  let s := foldl (Subscribe_register (C := demo)) New [(r, 1)] in
  parseGroupAddresses (C := demo) (GroupAddresses r) = inr [2563%N; 2563%N] ∧
  occ 1 (byTopic s 2563%N) = 2 ∧
  ¬ (occ 1 (byTopic s 2563%N) = 1).
Proof. vm_compute. split; [done|]. split; [done|]. lia. Qed.

Section Dispatch.
Context `{C : Collaborators}.

(** ** The dispatch loops *)

Lemma bind_run {A B} (m : M A) (k : A → M B) s a s1 t1 :
  m s = (a, s1, t1) →
  bind m k s = (result_of (k a s1), server_of (k a s1), t1 ++ trace_of (k a s1)).
Proof.
  intros Hm. unfold bind, result_of, server_of, trace_of. rewrite Hm.
  by destruct (k a s1) as [[??]?].
Qed.

Lemma dispatch_one_run msg resp sub s :
  dispatch_one msg resp sub s = ((), s, turn_effects msg resp sub).
Proof.
  unfold dispatch_one, turn_effects.
  destruct (not_interested sub resp); [done|].
  unfold send, bind, emit, ret. simpl.
  by destruct (stream_Send (stream sub) resp).
Qed.

(** A dispatch loop visits every handle of the slice, in order, whatever
    the sends before it returned, and leaves the server as it is. *)
Lemma for_range_dispatch msg resp subs s :
  for_range subs (dispatch_one msg resp) s =
  ((), s, flat_map (turn_effects msg resp) subs).
Proof.
  induction subs as [|sub rest IH]; simpl; [done|].
  erewrite bind_run by apply dispatch_one_run.
  rewrite IH. done.
Qed.

Lemma dispatchToSubscribers_run event s :
  dispatchToSubscribers event s =
  (None, s, flat_map (turn_effects "unable to send response to subscriber"
                        (toV1SubscribeResponse event))
              (byTopic s (Destination event))).
Proof.
  unfold dispatchToSubscribers, byTopic, bind, get. simpl.
  destruct (subscribers s !! Destination event) as [subs|]; simpl; [|done].
  rewrite for_range_dispatch. simpl. by rewrite app_nil_r.
Qed.

Lemma dispatchToSniffers_run event s :
  dispatchToSniffers event s =
  (None, s, flat_map (turn_effects "unable to send response to sniffer"
                        (toV1SubscribeResponse event))
              (sniffers s)).
Proof.
  unfold dispatchToSniffers, bind, get. simpl.
  case_bool_decide as Hlen.
  - apply nil_length_inv in Hlen. by rewrite Hlen.
  - rewrite for_range_dispatch. simpl. by rewrite app_nil_r.
Qed.

Lemma dispatchEvent_run event s :
  dispatchEvent event s =
  (None, s,
   flat_map (turn_effects "unable to send response to subscriber"
               (toV1SubscribeResponse event)) (byTopic s (Destination event)) ++
   flat_map (turn_effects "unable to send response to sniffer"
               (toV1SubscribeResponse event)) (sniffers s)).
Proof.
  unfold dispatchEvent, bind. rewrite dispatchToSubscribers_run.
  rewrite dispatchToSniffers_run. simpl. by rewrite app_nil_r.
Qed.

Lemma sends_of_app t1 t2 : sends_of (t1 ++ t2) = sends_of t1 ++ sends_of t2.
Proof. apply omap_app. Qed.

Lemma elem_of_sends_of sub resp t :
  (sub, resp) ∈ sends_of t ↔ StreamSend sub resp ∈ t.
Proof.
  unfold sends_of. rewrite list_elem_of_omap. split.
  - intros ([] & Hin & Heq); simplify_eq. done.
  - intros Hin. by exists (StreamSend sub resp).
Qed.

(** The sends of a loop are one message for each interested handle of the
    slice, in the order of the slice: none is left out after a failed
    send, none is sent twice. *)
Lemma sends_of_loop msg resp subs :
  sends_of (flat_map (turn_effects msg resp) subs) =
  (λ sub, (sub, resp)) <$> filter (λ sub, not_interested sub resp = false) subs.
Proof.
  induction subs as [|sub rest IH]; simpl; [done|].
  rewrite sends_of_app, IH, filter_cons. unfold turn_effects.
  case_decide as Hint; rewrite ?Hint.
  - by destruct (stream_Send (stream sub) resp).
  - by destruct (not_interested sub resp).
Qed.

Lemma elem_of_loop e msg resp subs :
  e ∈ flat_map (turn_effects msg resp) subs ↔
  ∃ sub, sub ∈ subs ∧ not_interested sub resp = false ∧
    (e = StreamSend sub resp ∨
     ∃ err, stream_Send (stream sub) resp = Some err ∧
            e = LogError err (stream_Peer (stream sub)) msg).
Proof.
  rewrite list_elem_of_In, in_flat_map. unfold turn_effects. split.
  - intros (sub & Hin & He). exists sub. rewrite list_elem_of_In. split; [done|].
    destruct (not_interested sub resp); [done|]. split; [done|].
    destruct He as [<-|He]; [by left|]. right.
    destruct (stream_Send (stream sub) resp) as [err|]; [|done].
    destruct He as [<-|[]]. by exists err.
  - intros (sub & Hin & Hint & He). exists sub. rewrite <- list_elem_of_In.
    split; [done|]. rewrite Hint.
    destruct He as [->|(err & Hsend & ->)]; [by left|].
    rewrite Hsend. right. by left.
Qed.

Lemma not_interested_false sub resp :
  not_interested sub resp = false ↔
  Event_of (req sub) = Event_EVENT_UNSPECIFIED ∨
  Event_of (req sub) = resp_Event resp.
Proof.
  unfold not_interested. rewrite andb_false_iff, !bool_decide_eq_false.
  split.
  - intros [H|H]; [left|right]; by apply dec_stable.
  - intros [H|H]; [left|right]; intros Hne; by apply Hne.
Qed.

(** A message is put on the stream of a handle by [dispatchEvent] exactly
    when the handle is enumerated and interested. *)
Lemma dispatchEvent_sends event s sub resp :
  StreamSend sub resp ∈ trace_of (dispatchEvent event s) ↔
  resp = toV1SubscribeResponse event ∧ sub ∈ enumerated s event ∧
  not_interested sub resp = false.
Proof.
  rewrite dispatchEvent_run. unfold trace_of, enumerated. simpl.
  rewrite !elem_of_app, !elem_of_loop. split.
  - intros [(sub' & Hin & Hint & He)|(sub' & Hin & Hint & He)];
      (destruct He as [[= -> ->]|(err & _ & ?)]; [|done]); auto.
  - intros (-> & [Hin|Hin] & Hint); [left|right]; exists sub; auto.
Qed.

(** ** Publish and the bus reader *)

Lemma Publish_send_failed r s event err :
  fromV1PublishRequest r = inr event → tunnel_Send event = Some err →
  Publish r s = (inl (NewError CodeInternal err), s, [TunnelSend event]).
Proof.
  intros Hreq Hsend. unfold Publish. rewrite Hreq.
  unfold bind, emit, ret. simpl. by rewrite Hsend.
Qed.

Lemma Publish_sent r s event :
  fromV1PublishRequest r = inr event → tunnel_Send event = None →
  Publish r s =
  (inr mkPublishResponse, s, TunnelSend event :: trace_of (dispatchEvent event s)).
Proof.
  intros Hreq Hsend. unfold Publish. rewrite Hreq.
  unfold bind, emit, ret. simpl. rewrite Hsend.
  rewrite dispatchEvent_run. unfold trace_of. simpl. by rewrite app_nil_r.
Qed.

Lemma Publish_invalid r s err :
  fromV1PublishRequest r = inl err →
  Publish r s = (inl (NewError CodeInvalidArgument err), s, []).
Proof. intros Hreq. unfold Publish. by rewrite Hreq. Qed.

(** The reader returns only when its context is done, and then nil; the
    registry is as it found it. *)
Lemma busMessageReader_run turns s :
  server_of (busMessageReader turns s) = s ∧
  (CtxDone ∈ turns → result_of (busMessageReader turns s) = Some None) ∧
  (CtxDone ∉ turns → result_of (busMessageReader turns s) = None).
Proof.
  induction turns as [|turn turns IH]; simpl.
  - split; [done|]. split; [|done]. by intros ?%elem_of_nil.
  - destruct turn as [|event].
    + split; [done|]. split; [done|]. intros Hnot. exfalso. apply Hnot. left.
    + unfold bind. rewrite dispatchEvent_run.
      destruct (busMessageReader turns s) as [[res s'] t] eqn:Hrun.
      unfold result_of, server_of in *. simpl in *.
      destruct IH as (Hs & Hdone & Hblocked). split; [done|]. split.
      * intros [?|Hin]%elem_of_cons; [done|]. by apply Hdone.
      * intros Hnot. apply Hblocked. intros Hin. apply Hnot. by right.
Qed.

Lemma busMessageReader_no_error turns s err :
  result_of (busMessageReader turns s) ≠ Some (Some err).
Proof.
  induction turns as [|[|event] turns IH]; simpl; [done|done|].
  unfold bind. rewrite dispatchEvent_run.
  destruct (busMessageReader turns s) as [[res s'] t].
  unfold result_of in *. simpl in *. done.
Qed.

Lemma fromV1PublishRequest_command r event :
  fromV1PublishRequest r = inr event →
  Command event = GroupRead ∨ Command event = GroupResponse ∨
  Command event = GroupWrite.
Proof.
  unfold fromV1PublishRequest.
  destruct (NewGroupAddrString (pub_GroupAddress r)) as [err|ga]; [done|].
  case_bool_decide.
  - intros [= <-]. simpl. destruct (pub_Event r); auto.
  - destruct (NewIndividualAddrString (pub_PhysicalAddress r)); [done|].
    intros [= <-]. simpl. destruct (pub_Event r); auto.
Qed.

Lemma bus_sends_of_loop msg resp subs :
  bus_sends_of (flat_map (turn_effects msg resp) subs) = [].
Proof.
  induction subs as [|sub rest IH]; simpl; [done|].
  unfold bus_sends_of in *. rewrite omap_app, IH, app_nil_r.
  unfold turn_effects. destruct (not_interested sub resp); [done|].
  by destruct (stream_Send (stream sub) resp).
Qed.

Lemma dispatchEvent_bus_sends event s :
  bus_sends_of (trace_of (dispatchEvent event s)) = [].
Proof.
  rewrite dispatchEvent_run. unfold trace_of, bus_sends_of. simpl.
  rewrite omap_app. fold (bus_sends_of). by rewrite !bus_sends_of_loop.
Qed.

(** The kind that the mapper puts on a message is the kind of the command
    of the event: Read, Response and Write for the three named commands,
    Unspecified for every other command. *)
Lemma toV1SubscribeResponse_kind event :
  (resp_Event (toV1SubscribeResponse event) = Event_EVENT_READ ↔
     Command event = GroupRead) ∧
  (resp_Event (toV1SubscribeResponse event) = Event_EVENT_RESPONSE ↔
     Command event = GroupResponse) ∧
  (resp_Event (toV1SubscribeResponse event) = Event_EVENT_WRITE ↔
     Command event = GroupWrite) ∧
  (resp_Event (toV1SubscribeResponse event) = Event_EVENT_UNSPECIFIED ↔
     Command event ≠ GroupRead ∧ Command event ≠ GroupResponse ∧
     Command event ≠ GroupWrite).
Proof.
  unfold toV1SubscribeResponse. simpl.
  destruct (decide (Command event = GroupRead)) as [Hr|Hr].
  { rewrite (bool_decide_eq_true_2 _ Hr), Hr.
    repeat split; try done; by intros (? & _). }
  rewrite (bool_decide_eq_false_2 _ Hr).
  destruct (decide (Command event = GroupResponse)) as [Hp|Hp].
  { rewrite (bool_decide_eq_true_2 _ Hp), Hp.
    repeat split; try done; by intros (_ & ? & _). }
  rewrite (bool_decide_eq_false_2 _ Hp).
  destruct (decide (Command event = GroupWrite)) as [Hw|Hw].
  { rewrite (bool_decide_eq_true_2 _ Hw), Hw.
    repeat split; try done; by intros (_ & _ & ?). }
  rewrite (bool_decide_eq_false_2 _ Hw). repeat split; done.
Qed.

(** The filter of the dispatch loops, read against the command of the
    event: a handle is sent the event when its request asks for
    Unspecified, or for the kind of the command. *)
Lemma not_interested_command sub event :
  not_interested sub (toV1SubscribeResponse event) = false ↔
  Event_of (req sub) = Event_EVENT_UNSPECIFIED ∨
  (Event_of (req sub) = Event_EVENT_READ ∧ Command event = GroupRead) ∨
  (Event_of (req sub) = Event_EVENT_RESPONSE ∧ Command event = GroupResponse) ∨
  (Event_of (req sub) = Event_EVENT_WRITE ∧ Command event = GroupWrite).
Proof.
  rewrite not_interested_false.
  destruct (toV1SubscribeResponse_kind event) as (Hr & Hp & Hw & Hu).
  split.
  - intros [Hun|Heq]; [by left|].
    destruct (Event_of (req sub)) eqn:Hkind; [by left|..]; right.
    + left. split; [done|]. by apply Hr.
    + right. left. split; [done|]. by apply Hp.
    + right. right. split; [done|]. by apply Hw.
  - intros [Hun|[[Hk Hc]|[[Hk Hc]|[Hk Hc]]]]; [by left|..]; right; rewrite Hk;
      symmetry.
    + by apply Hr.
    + by apply Hp.
    + by apply Hw.
Qed.

(** ** The claims on dispatch *)

(** C5. For every dispatched event and every registered handle: every
    message sent is the conversion of the event, whose kind is that of the
    command of the event; a handle that asked for Read is sent the event
    only when its command is GroupRead, never when it is GroupWrite or
    GroupResponse, so that the message it gets is never of kind Write or
    Response; a handle of the topic that asked for Unspecified is sent the
    event whatever its command, and one that asked for a kind is sent the
    events whose command is of that kind; a sniffer is sent the event,
    whatever its topic, exactly when it asked for Unspecified or for the
    kind of the command. *)
Theorem kind_filter_of_dispatch (event : GroupEvent) (s : Server) :
  let t := trace_of (dispatchEvent event s) in
  let resp := toV1SubscribeResponse event in
  ((Command event = GroupRead → resp_Event resp = Event_EVENT_READ) ∧
   (Command event = GroupResponse → resp_Event resp = Event_EVENT_RESPONSE) ∧
   (Command event = GroupWrite → resp_Event resp = Event_EVENT_WRITE)) ∧
  (∀ sub resp', StreamSend sub resp' ∈ t → resp' = resp) ∧
  (∀ sub resp', StreamSend sub resp' ∈ t →
     Event_of (req sub) = Event_EVENT_READ →
     Command event = GroupRead ∧
     Command event ≠ GroupWrite ∧ Command event ≠ GroupResponse ∧
     resp_Event resp' ≠ Event_EVENT_WRITE ∧
     resp_Event resp' ≠ Event_EVENT_RESPONSE) ∧
  (∀ sub, sub ∈ byTopic s (Destination event) →
     Event_of (req sub) = Event_EVENT_UNSPECIFIED →
     StreamSend sub resp ∈ t) ∧
  (∀ sub, sub ∈ byTopic s (Destination event) →
     StreamSend sub resp ∈ t ↔
     Event_of (req sub) = Event_EVENT_UNSPECIFIED ∨
     (Event_of (req sub) = Event_EVENT_READ ∧ Command event = GroupRead) ∨
     (Event_of (req sub) = Event_EVENT_RESPONSE ∧
      Command event = GroupResponse) ∨
     (Event_of (req sub) = Event_EVENT_WRITE ∧ Command event = GroupWrite)) ∧
  (∀ sub, sub ∈ sniffers s →
     StreamSend sub resp ∈ t ↔
     Event_of (req sub) = Event_EVENT_UNSPECIFIED ∨
     (Event_of (req sub) = Event_EVENT_READ ∧ Command event = GroupRead) ∨
     (Event_of (req sub) = Event_EVENT_RESPONSE ∧
      Command event = GroupResponse) ∨
     (Event_of (req sub) = Event_EVENT_WRITE ∧ Command event = GroupWrite)).
Proof.
  intros t resp.
  destruct (toV1SubscribeResponse_kind event) as (Hr & Hp & Hw & Hu).
  split; [|split; [|split; [|split; [|split]]]].
  - split; [apply Hr|split; [apply Hp|apply Hw]].
  - by intros sub resp' (-> & _ & _)%dispatchEvent_sends.
  - intros sub resp' (-> & _ & Hint)%dispatchEvent_sends Hread.
    apply not_interested_command in Hint.
    rewrite Hread in Hint.
    destruct Hint as [?|[[_ Hc]|[[? _]|[? _]]]]; try done.
    split; [done|]. split; [by rewrite Hc|]. split; [by rewrite Hc|].
    apply Hr in Hc. rewrite Hc. done.
  - intros sub Hin Hkind. apply dispatchEvent_sends.
    split; [done|]. split; [apply elem_of_app; by left|].
    apply not_interested_false. by left.
  - intros sub Hin. unfold t, resp. rewrite dispatchEvent_sends.
    rewrite not_interested_command. split; [by intros (_ & _ & ?)|].
    intros Hint. split; [done|]. split; [apply elem_of_app; by left|done].
  - intros sub Hin. unfold t, resp. rewrite dispatchEvent_sends.
    rewrite not_interested_command. split; [by intros (_ & _ & ?)|].
    intros Hint. split; [done|]. split; [apply elem_of_app; by right|done].
Qed.

(** C7. For every Publish request that converts to an event: if the bus
    send fails, the call returns an Internal-class error with the cause and
    nothing is put on any stream; if the bus send succeeds, the call
    succeeds and the same event is dispatched once: its effects are those
    of one [dispatchEvent], one message for every interested handle the
    dispatch enumerates. Either way the event went to the bus once. *)
Theorem publish_dispatches_after_send (r : PublishRequest) (s : Server)
    (event : GroupEvent) :
  fromV1PublishRequest r = inr event →
  bus_sends_of (trace_of (Publish r s)) = [event] ∧
  (∀ err, tunnel_Send event = Some err →
     result_of (Publish r s) = inl (NewError CodeInternal err) ∧
     sends_of (trace_of (Publish r s)) = []) ∧
  (tunnel_Send event = None →
     result_of (Publish r s) = inr mkPublishResponse ∧
     trace_of (Publish r s) =
       TunnelSend event :: trace_of (dispatchEvent event s) ∧
     sends_of (trace_of (Publish r s)) =
       (λ sub, (sub, toV1SubscribeResponse event)) <$>
       filter (λ sub, not_interested sub (toV1SubscribeResponse event) = false)
         (enumerated s event)).
Proof.
  intros Hreq.
  pose proof (dispatchEvent_bus_sends event s) as Hbus.
  split; [|split].
  - destruct (tunnel_Send event) as [err|] eqn:Hsend.
    + by rewrite (Publish_send_failed r s event err).
    + rewrite (Publish_sent r s event) by done. unfold trace_of in *. simpl.
      by rewrite Hbus.
  - intros err Hsend. by rewrite (Publish_send_failed r s event err).
  - intros Hsend. rewrite (Publish_sent r s event) by done.
    split; [done|]. split; [done|].
    rewrite dispatchEvent_run. unfold trace_of, enumerated. simpl.
    change (sends_of (?e :: ?t)) with (sends_of t).
    by rewrite sends_of_app, !sends_of_loop, filter_app, fmap_app.
Qed.

(** C8. For every dispatched event and every handle either phase
    enumerates: the dispatch returns nil and leaves the registry as it is;
    the streams are sent one message for each interested handle, in the
    order of enumeration, whatever the sends return, so a failed send stops
    nothing and is not repeated; every failed send is logged with the peer
    of its stream, and nothing else is logged; a Publish whose bus send
    succeeded succeeds, and the bus reader never returns an error. *)
Theorem failed_send_is_logged_and_skipped (event : GroupEvent) (s : Server) :
  let run := dispatchEvent event s in
  let resp := toV1SubscribeResponse event in
  result_of run = None ∧
  server_of run = s ∧
  sends_of (trace_of run) =
    ((λ sub, (sub, resp)) <$>
     filter (λ sub, not_interested sub resp = false) (enumerated s event)) ∧
  (∀ sub err, sub ∈ enumerated s event → not_interested sub resp = false →
     stream_Send (stream sub) resp = Some err →
     ∃ msg, LogError err (stream_Peer (stream sub)) msg ∈ trace_of run) ∧
  (∀ err peer msg, LogError err peer msg ∈ trace_of run →
     ∃ sub, sub ∈ enumerated s event ∧
       stream_Send (stream sub) resp = Some err ∧
       peer = stream_Peer (stream sub)) ∧
  (∀ r, fromV1PublishRequest r = inr event → tunnel_Send event = None →
     result_of (Publish r s) = inr mkPublishResponse ∧
     server_of (Publish r s) = s) ∧
  (∀ turns err,
     result_of (busMessageReader (Inbound event :: turns) s) ≠ Some (Some err) ∧
     server_of (busMessageReader (Inbound event :: turns) s) = s).
Proof.
  intros run resp.
  assert (∀ turns err,
     result_of (busMessageReader (Inbound event :: turns) s) ≠ Some (Some err) ∧
     server_of (busMessageReader (Inbound event :: turns) s) = s) as Hreader.
  { intros turns err.
    split; [apply busMessageReader_no_error | apply busMessageReader_run]. }
  assert (∀ r, fromV1PublishRequest r = inr event → tunnel_Send event = None →
     result_of (Publish r s) = inr mkPublishResponse ∧
     server_of (Publish r s) = s) as Hpublish.
  { intros r Hreq Hsend. by rewrite (Publish_sent r s event). }
  unfold run. rewrite dispatchEvent_run.
  unfold trace_of at 1 2 3. unfold enumerated. cbn [fst snd].
  split; [done|]. split; [done|].
  split; [|split; [|split; [|split; [exact Hpublish | exact Hreader]]]].
  - by rewrite sends_of_app, !sends_of_loop, filter_app, fmap_app.
  - intros sub err Hin Hint Hsend. apply elem_of_app in Hin as [Hin|Hin].
    + eexists. apply elem_of_app. left. apply elem_of_loop.
      exists sub. split; [done|]. split; [done|]. right. by exists err.
    + eexists. apply elem_of_app. right. apply elem_of_loop.
      exists sub. split; [done|]. split; [done|]. right. by exists err.
  - intros err peer msg Hin.
    apply elem_of_app in Hin as [Hin|Hin];
      apply elem_of_loop in Hin as (sub & Hsub & _ & [?|(err' & Hsend & Heq)]);
      try done; injection Heq as -> -> _; exists sub;
      (split; [apply elem_of_app; auto | done]).
Qed.

(** C9, amended. For every bus event whose command is one of the three
    that knx-go names, GroupRead, GroupResponse and GroupWrite (every event
    that Publish builds is such an event), the kind of every message put on
    a stream is Read, Response or Write accordingly, never Unspecified. A
    bus event with any other command value is converted with the kind
    Unspecified and put, as such, on the stream of every enumerated handle
    whose filter is Unspecified, and of no other handle. *)
Theorem delivered_kind_follows_command (event : GroupEvent) (s : Server) :
  let t := trace_of (dispatchEvent event s) in
  (Command event = GroupRead ∨ Command event = GroupResponse ∨
   Command event = GroupWrite →
   ∀ sub resp, StreamSend sub resp ∈ t →
     resp_Event resp ≠ Event_EVENT_UNSPECIFIED ∧
     (Command event = GroupRead → resp_Event resp = Event_EVENT_READ) ∧
     (Command event = GroupResponse → resp_Event resp = Event_EVENT_RESPONSE) ∧
     (Command event = GroupWrite → resp_Event resp = Event_EVENT_WRITE)) ∧
  (Command event ≠ GroupRead → Command event ≠ GroupResponse →
   Command event ≠ GroupWrite →
   resp_Event (toV1SubscribeResponse event) = Event_EVENT_UNSPECIFIED ∧
   (∀ sub resp, StreamSend sub resp ∈ t →
      resp_Event resp = Event_EVENT_UNSPECIFIED ∧
      Event_of (req sub) = Event_EVENT_UNSPECIFIED) ∧
   (∀ sub, sub ∈ enumerated s event →
      Event_of (req sub) = Event_EVENT_UNSPECIFIED →
      StreamSend sub (toV1SubscribeResponse event) ∈ t)) ∧
  (∀ r published, fromV1PublishRequest r = inr published →
     Command published = GroupRead ∨ Command published = GroupResponse ∨
     Command published = GroupWrite).
Proof.
  intros t.
  destruct (toV1SubscribeResponse_kind event) as (Hr & Hp & Hw & Hu).
  split; [|split].
  - intros Hcmd sub resp (-> & _ & _)%dispatchEvent_sends.
    split; [|split; [apply Hr|split; [apply Hp|apply Hw]]].
    intros Hun. apply Hu in Hun as (? & ? & ?). by destruct Hcmd as [?|[?|?]].
  - intros Hnr Hnp Hnw.
    assert (resp_Event (toV1SubscribeResponse event) = Event_EVENT_UNSPECIFIED)
      as Hkind by (by apply Hu).
    split; [done|]. split.
    + intros sub resp (-> & _ & Hint)%dispatchEvent_sends. split; [done|].
      apply not_interested_command in Hint.
      by destruct Hint as [?|[[_ ?]|[[_ ?]|[_ ?]]]].
    + intros sub Hin Hfilter. apply dispatchEvent_sends.
      split; [done|]. split; [done|]. apply not_interested_false. by left.
  - apply fromV1PublishRequest_command.
Qed.

(** C10. [dispatchEvent] returns nil for every event and every registry
    state; hence an Internal-class error of Publish is always the failure
    of the bus send, met before anything is dispatched, and the bus reader
    returns only when its context is done, with nil: while the context is
    not done it keeps reading, whatever the events. *)
Theorem dispatch_returns_nil :
  (∀ event s, result_of (dispatchEvent event s) = None) ∧
  (∀ r s err, result_of (Publish r s) = inl (NewError CodeInternal err) →
     ∃ event, fromV1PublishRequest r = inr event ∧
       tunnel_Send event = Some err ∧
       trace_of (Publish r s) = [TunnelSend event]) ∧
  (∀ turns s,
     (CtxDone ∈ turns → result_of (busMessageReader turns s) = Some None) ∧
     (CtxDone ∉ turns → result_of (busMessageReader turns s) = None)).
Proof.
  split; [|split].
  - intros event s. by rewrite dispatchEvent_run.
  - intros r s err.
    destruct (fromV1PublishRequest r) as [e|event] eqn:Hreq.
    { by rewrite (Publish_invalid r s e). }
    destruct (tunnel_Send event) as [e|] eqn:Hsend.
    + rewrite (Publish_send_failed r s event e) by done.
      unfold result_of, trace_of. simpl. intros [= ->]. by exists event.
    + by rewrite (Publish_sent r s event).
  - intros turns s. apply busMessageReader_run.
Qed.

End Dispatch.

Section Calls.
Context `{C : Collaborators}.

(** ** Subscribe *)

Lemma Subscribe_registered_occ r st addrs s :
  parseGroupAddresses (GroupAddresses r) = inr addrs →
  let s1 := if bool_decide (0 < length addrs)
            then registerSubscriber addrs r st s
            else registerSniffer r st s in
  (∀ t, occ st (byTopic s1 t) = occ st (byTopic s t) + times_listed t addrs) ∧
  occ st (sniffers s1) =
    occ st (sniffers s) + (if bool_decide (addrs = []) then 1 else 0) ∧
  (no_empty_entry (subscribers s) → no_empty_entry (subscribers s1)).
Proof.
  intros Hparse s1.
  assert (Subscribe_register s (r, st) = s1) as Heq.
  { unfold Subscribe_register. simpl. by rewrite Hparse. }
  rewrite <- Heq. split; [|split].
  - intros t. rewrite (Subscribe_register_occ_topic _ _ _ _ addrs) by done.
    by rewrite (bool_decide_eq_true_2 (st = st)).
  - rewrite (Subscribe_register_occ_sniffers _ _ _ _ addrs) by done.
    by rewrite (bool_decide_eq_true_2 (st = st)).
  - rewrite Heq. unfold s1. case_bool_decide; simpl; [|done].
    apply foldl_register_no_empty.
Qed.

(** C1, the code at its two exits after the [select]. A call with a fresh
    stream whose request parses: when the context of the call wakes it, it
    returns nil and the registry holds its stream nowhere; when the context
    of the server wakes it, it returns the Aborted-class error and the
    registry still holds its stream as registered, for every listed topic
    or as a sniffer: this exit does not unregister. *)
Theorem Subscribe_exits (r : SubscribeRequest) (st : ServerStream)
    (addrs : list GroupAddr) (parked : list registry_op) (s : Server) :
  parseGroupAddresses (GroupAddresses r) = inr addrs →
  no_empty_entry (subscribers s) →
  stream_free st (subscribers s) → occ st (sniffers s) = 0 →
  Forall (λ o, op_stream o ≠ st) parked →
  ((Subscribe r st parked CallCtxDone s).1 = None ∧
   stream_free st (subscribers (Subscribe r st parked CallCtxDone s).2) ∧
   occ st (sniffers (Subscribe r st parked CallCtxDone s).2) = 0 ∧
   no_empty_entry (subscribers (Subscribe r st parked CallCtxDone s).2)) ∧
  (∀ cause,
     (Subscribe r st parked (ServerCtxDone cause) s).1 =
       Some (NewError CodeAborted cause) ∧
     (∀ t, occ st (byTopic (Subscribe r st parked (ServerCtxDone cause) s).2 t) =
           times_listed t addrs) ∧
     occ st (sniffers (Subscribe r st parked (ServerCtxDone cause) s).2) =
       (if bool_decide (addrs = []) then 1 else 0)).
Proof.
  intros Hparse Hne Hfree Hsniff Hops.
  destruct (Subscribe_registered_occ r st addrs s Hparse) as (Ht & Hs & Hne1).
  set (s1 := if bool_decide (0 < length addrs)
             then registerSubscriber addrs r st s
             else registerSniffer r st s) in *.
  assert (∀ t, occ st (byTopic (run_ops parked s1) t) = times_listed t addrs) as Ht2.
  { intros t. rewrite run_ops_occ_topic, Ht by done.
    apply stream_free_alt with (t := t) in Hfree. unfold byTopic. lia. }
  assert (occ st (sniffers (run_ops parked s1)) =
          (if bool_decide (addrs = []) then 1 else 0)) as Hs2.
  { rewrite run_ops_occ_sniffers, Hs by done. lia. }
  assert (no_empty_entry (subscribers (run_ops parked s1))) as Hne2.
  { apply run_ops_no_empty. auto. }
  unfold Subscribe. rewrite Hparse. fold s1. split; [|done].
  simpl. split; [done|]. destruct (decide (0 < length addrs)) as [Hlen|Hlen].
  - rewrite !(bool_decide_eq_true_2 (0 < length addrs)) by done.
    destruct (unregister_registered_exactly addrs st (run_ops parked s1))
      as [Hne3 Hfree3]; [done|done|].
    split; [done|]. split; [|done]. simpl. rewrite Hs2.
    rewrite bool_decide_eq_false_2; [done|]. intros ->. simpl in Hlen. lia.
  - rewrite !(bool_decide_eq_false_2 (0 < length addrs)) by done.
    assert (addrs = []) as Hnil by (apply nil_length_inv; lia).
    simpl. split; [|split; [|done]].
    + apply stream_free_alt. intros t. specialize (Ht2 t).
      unfold byTopic in Ht2. rewrite Ht2, Hnil. done.
    + fold (remove_stream st (sniffers (run_ops parked s1))).
      rewrite occ_remove_stream, bool_decide_eq_true_2 by done. rewrite Hs2.
      by rewrite bool_decide_eq_true_2.
Qed.

(** ** SubscribeUnary *)


Lemma receive_loop_all for_ incoming messages :
  for_ ≠ "" → receive_loop for_ incoming messages = messages ++ incoming.
Proof.
  intros Hfor. revert messages.
  induction incoming as [|msg rest IH]; intros messages; simpl.
  - by rewrite app_nil_r.
  - rewrite bool_decide_eq_false_2 by done. rewrite IH.
    by rewrite <- app_assoc.
Qed.

Lemma SubscribeUnary_open config r timeout opened :
  validate_for (For r) = inr timeout →
  client_Subscribe (NewClient config).1 timeout (unary_SubscribeRequest r) =
    (opened, None) →
  SubscribeUnary config r =
    inr {| Messages := receive_loop (For r) (incoming opened) [] |}.
Proof.
  intros Hfor Hopen. unfold SubscribeUnary. simpl in *.
  by rewrite Hfor, Hopen.
Qed.

(** C2, the code on an open stream. Once the internal stream is open the
    call returns the collected messages as a success (all the messages
    received, when a duration is given) whatever [stream.Err()] reports
    when the stream ends: the cause of the termination is never looked at,
    and no Internal-class error is returned for it. *)
Theorem SubscribeUnary_ignores_stream_error (config : ClientConfig)
    (r : SubscribeUnaryRequest) (timeout : option Duration)
    (opened : ServerStreamForClient) :
  validate_for (For r) = inr timeout →
  client_Subscribe (NewClient config).1 timeout (unary_SubscribeRequest r) =
    (opened, None) →
  SubscribeUnary config r =
    inr {| Messages := receive_loop (For r) (incoming opened) [] |} ∧
  (For r ≠ "" → receive_loop (For r) (incoming opened) [] = incoming opened).
Proof.
  intros Hfor Hopen. split; [by apply (SubscribeUnary_open _ _ timeout)|].
  intros Hdur. by rewrite receive_loop_all.
Qed.


End Calls.

(** ** The handlers in the concrete world *)

Lemma demo_server_no_empty : no_empty_entry (subscribers demo_server).
Proof.
  intros t subs Ht. simpl in Ht.
  apply lookup_singleton_Some in Ht as [_ <-]. done.
Qed.

Lemma demo_server_fresh st :
  4 < st → stream_free st (subscribers demo_server) ∧
           occ st (sniffers demo_server) = 0.
Proof.
  intros Hst. split.
  - intros t subs Ht. simpl in Ht.
    apply lookup_singleton_Some in Ht as [_ <-].
    rewrite !occ_cons. change (occ st []) with 0.
    repeat case_bool_decide; simpl in *; lia.
  - simpl. rewrite !occ_cons. change (occ st []) with 0.
    repeat case_bool_decide; simpl in *; lia.
Qed.

Lemma Subscribe_exits_witness :
  let r := demo_request ["1/2/3"; "4/5/6"] Event_EVENT_READ in
  let parked := [OpRegisterSniffer (demo_request [] Event_EVENT_WRITE) 5] in
  let aborted := Subscribe (C := demo) r 9 parked (ServerCtxDone Canceled)
                   demo_server in
  aborted.1 = Some (NewError CodeAborted Canceled) ∧
  occ 9 (byTopic aborted.2 2563%N) = 1 ∧
  occ 9 (byTopic aborted.2 9478%N) = 1.
Proof.
  intros r parked aborted.
  assert (parseGroupAddresses (C := demo) (GroupAddresses r)
          = inr [2563%N; 9478%N]) as H1 by reflexivity.
  assert (Forall (λ o, op_stream o ≠ 9) parked) as H5.
  { repeat constructor; simpl; lia. }
  destruct (demo_server_fresh 9) as [H3 H4]; [lia|].
  destruct (Subscribe_exits (C := demo) r 9 [2563%N; 9478%N] parked demo_server
              H1 demo_server_no_empty H3 H4 H5) as [_ Habort].
  destruct (Habort Canceled) as (Herr & Htopics & _).
  split; [exact Herr|].
  split; [exact (Htopics 2563%N) | exact (Htopics 9478%N)].
Defined.

Lemma SubscribeUnary_ignores_stream_error_witness :
  stream_Err demo_stream = Some demo_closed_by_server ∧
  errors_Is_Canceled demo_closed_by_server = false ∧
  errors_Is_DeadlineExceeded demo_closed_by_server = false ∧
  SubscribeUnary (C := demo) demo_config (demo_unary "500ms") =
    inr {| Messages := [demo_message Event_EVENT_WRITE;
                        demo_message Event_EVENT_READ] |}.
Proof.
  split; [reflexivity|]. split; [reflexivity|]. split; [reflexivity|].
  exact (proj1 (SubscribeUnary_ignores_stream_error (C := demo) demo_config
                  (demo_unary "500ms") (Some 500000000%Z) demo_stream
                  eq_refl eq_refl)).
Defined.


Lemma kind_filter_of_dispatch_witness :
  let event := demo_event GroupWrite in
  let t := trace_of (dispatchEvent (C := demo) event demo_server) in
  let resp := toV1SubscribeResponse (C := demo) event in
  resp_Event resp = Event_EVENT_WRITE ∧
  StreamSend (demo_sub Event_EVENT_UNSPECIFIED 1) resp ∈ t ∧
  StreamSend (demo_sub Event_EVENT_WRITE 3) resp ∈ t ∧
  StreamSend (demo_sniffer Event_EVENT_UNSPECIFIED 2) resp ∈ t ∧
  (StreamSend (demo_sniffer Event_EVENT_RESPONSE 4) resp ∉ t) ∧
  (StreamSend (demo_sub Event_EVENT_READ 2) resp ∉ t).
Proof.
  intros event t resp.
  destruct (kind_filter_of_dispatch (C := demo) event demo_server)
    as ((_ & _ & Hwrite) & _ & Hread & Hany & Htopic & Hsniffer).
  split; [exact (Hwrite eq_refl)|]. split; [|split; [|split; [|split]]].
  - apply Hany; [|reflexivity]. vm_compute. repeat constructor.
  - apply Htopic; [vm_compute; repeat constructor|].
    right. right. right. split; reflexivity.
  - apply Hsniffer; [|left; reflexivity]. vm_compute. repeat constructor.
  - intros Hin. apply Hsniffer in Hin; [|vm_compute; repeat constructor].
    destruct Hin as [Hin|[[Hin _]|[[_ Hin]|[Hin _]]]]; discriminate Hin.
  - intros Hin. apply Hread in Hin; [|reflexivity].
    destruct Hin as [Hin _]. discriminate Hin.
Defined.

Lemma publish_dispatches_after_send_witness :
  let sent := Publish (C := demo) (demo_publish "1/2/3") demo_server in
  let refused := Publish (C := demo) (demo_publish "4/5/6") demo_server in
  (result_of sent = inr mkPublishResponse ∧
   sends_of (trace_of sent) =
     [(demo_sub Event_EVENT_UNSPECIFIED 1, demo_message Event_EVENT_WRITE);
      (demo_sub Event_EVENT_WRITE 3, demo_message Event_EVENT_WRITE);
      (demo_sniffer Event_EVENT_UNSPECIFIED 2, demo_message Event_EVENT_WRITE)]) ∧
  (result_of refused =
     inl (NewError CodeInternal (errorString "tunnel closed")) ∧
   sends_of (trace_of refused) = []).
Proof.
  intros sent refused. split.
  - destruct (publish_dispatches_after_send (C := demo) (demo_publish "1/2/3")
                demo_server (demo_event GroupWrite) eq_refl)
      as (_ & _ & Hsent).
    destruct (Hsent eq_refl) as (Hres & _ & Hsends).
    split; [exact Hres|]. etransitivity; [exact Hsends|]. reflexivity.
  - destruct (publish_dispatches_after_send (C := demo) (demo_publish "4/5/6")
                demo_server
                {| Command := GroupWrite; Source := 4353%N;
                   Destination := 9478%N; Data := [1%N] |} eq_refl)
      as (_ & Hrefused & _).
    exact (Hrefused (errorString "tunnel closed") eq_refl).
Defined.

Lemma failed_send_is_logged_and_skipped_witness :
  let event := demo_event GroupWrite in
  let run := dispatchEvent (C := demo) event demo_server in
  @stream_Send demo 2 (demo_message Event_EVENT_WRITE) =
    Some (errorString "broken pipe") ∧
  result_of run = None ∧
  server_of run = demo_server ∧
  sends_of (trace_of run) =
    [(demo_sub Event_EVENT_UNSPECIFIED 1, demo_message Event_EVENT_WRITE);
     (demo_sub Event_EVENT_WRITE 3, demo_message Event_EVENT_WRITE);
     (demo_sniffer Event_EVENT_UNSPECIFIED 2, demo_message Event_EVENT_WRITE)] ∧
  (∃ msg, LogError (errorString "broken pipe") "10.0.0.2" msg ∈ trace_of run) ∧
  result_of (Publish (C := demo) (demo_publish "1/2/3") demo_server) =
    inr mkPublishResponse.
Proof.
  intros event run.
  destruct (failed_send_is_logged_and_skipped (C := demo) event demo_server)
    as (Hres & Hsrv & Hsends & Hlogged & _ & Hpublish & _).
  split; [reflexivity|]. split; [exact Hres|]. split; [exact Hsrv|].
  split; [etransitivity; [exact Hsends|reflexivity]|]. split.
  - apply (Hlogged (demo_sniffer Event_EVENT_UNSPECIFIED 2)
             (errorString "broken pipe")); [|reflexivity|reflexivity].
    vm_compute. repeat constructor.
  - exact (proj1 (Hpublish (demo_publish "1/2/3") eq_refl eq_refl)).
Defined.

Lemma delivered_kind_follows_command_witness :
  let named := demo_event GroupResponse in
  let unnamed := demo_event 7%N in
  (StreamSend (demo_sniffer Event_EVENT_RESPONSE 4)
     (demo_message Event_EVENT_RESPONSE) ∈
     trace_of (dispatchEvent (C := demo) named demo_server) ∧
   resp_Event (demo_message Event_EVENT_RESPONSE) ≠ Event_EVENT_UNSPECIFIED) ∧
  (resp_Event (toV1SubscribeResponse (C := demo) unnamed) =
     Event_EVENT_UNSPECIFIED ∧
   StreamSend (demo_sub Event_EVENT_UNSPECIFIED 1)
     (toV1SubscribeResponse (C := demo) unnamed) ∈
     trace_of (dispatchEvent (C := demo) unnamed demo_server)).
Proof.
  intros named unnamed. split.
  - assert (StreamSend (demo_sniffer Event_EVENT_RESPONSE 4)
              (demo_message Event_EVENT_RESPONSE) ∈
            trace_of (dispatchEvent (C := demo) named demo_server)) as Hin.
    { vm_compute. repeat constructor. }
    split; [exact Hin|].
    exact (proj1 (proj1 (delivered_kind_follows_command (C := demo) named
                           demo_server)
                    (or_intror (or_introl eq_refl)) _ _ Hin)).
  - destruct (proj1 (proj2 (delivered_kind_follows_command (C := demo) unnamed
                              demo_server)))
      as (Hkind & _ & Hsent); [discriminate..|].
    split; [exact Hkind|]. apply Hsent; [|reflexivity].
    vm_compute. repeat constructor.
Defined.

(** C9, as stated, fails for a bus event whose command is none of the
    three named ones: it is converted with the kind Unspecified and put, as
    such, on the stream of every handle whose filter is Unspecified. *)
Lemma unnamed_command_is_delivered_unspecified :
  let event := demo_event 255%N in
  sends_of (trace_of (dispatchEvent (C := demo) event demo_server)) =
    [(demo_sub Event_EVENT_UNSPECIFIED 1, demo_message Event_EVENT_UNSPECIFIED);
     (demo_sniffer Event_EVENT_UNSPECIFIED 2,
      demo_message Event_EVENT_UNSPECIFIED)] ∧
  resp_Event (demo_message Event_EVENT_UNSPECIFIED) = Event_EVENT_UNSPECIFIED.
Proof. split; reflexivity. Qed.

Lemma dispatch_returns_nil_witness :
  result_of (dispatchEvent (C := demo) (demo_event GroupRead) demo_server) = None ∧
  @tunnel_Send demo (demo_event GroupWrite) = None ∧
  result_of (busMessageReader (C := demo)
               [Inbound (demo_event GroupWrite); Inbound (demo_event 3%N);
                CtxDone; Inbound (demo_event GroupRead)] demo_server) =
    Some None ∧
  result_of (busMessageReader (C := demo)
               [Inbound (demo_event GroupWrite); Inbound (demo_event 3%N)]
               demo_server) = None.
Proof.
  destruct (dispatch_returns_nil (C := demo)) as (Hnil & Hpublish & Hreader).
  split; [exact (Hnil (demo_event GroupRead) demo_server)|].
  split; [reflexivity|]. split.
  - apply (proj1 (Hreader _ demo_server)). do 2 right. left.
  - apply (proj2 (Hreader _ demo_server)). intros Hin.
    repeat (apply elem_of_cons in Hin as [Hin|Hin]; [discriminate Hin|]).
    by apply elem_of_nil in Hin.
Defined.

(** * More properties of the registry *)

Lemma register_address_lookup r st (m : gmap GroupAddr (list subscriber)) a t :
  register_address r st m a !! t =
  if decide (t = a)
  then Some (default [] (m !! a) ++ [{| req := r; stream := st |}])
  else m !! t.
Proof.
  unfold register_address. case_decide as Ht.
  - subst. rewrite lookup_insert_eq. by destruct (m !! a).
  - by rewrite lookup_insert_ne.
Qed.

Lemma foldl_register_lookup r st addresses (m : gmap GroupAddr (list subscriber)) t :
  foldl (register_address r st) m addresses !! t =
  if decide (times_listed t addresses = 0) then m !! t
  else Some (default [] (m !! t) ++
             replicate (times_listed t addresses) {| req := r; stream := st |}).
Proof.
  revert m. induction addresses as [|a rest IH]; intros m; simpl; [done|].
  rewrite IH, register_address_lookup, times_listed_cons.
  destruct (decide (t = a)) as [->|Hne].
  - rewrite bool_decide_eq_true_2 by done. simpl.
    case_decide as Hrest.
    + rewrite Hrest. done.
    + rewrite <- app_assoc. done.
  - rewrite bool_decide_eq_false_2 by done. simpl. done.
Qed.

Lemma unregister_address_lookup_ne st (m : gmap GroupAddr (list subscriber)) a t :
  t ≠ a → unregister_address st m a !! t = m !! t.
Proof.
  intros Hne. unfold unregister_address.
  destruct (m !! a) as [subs|]; [|done].
  destruct (last_is st subs); [case_bool_decide|];
    by rewrite ?lookup_insert_ne, ?lookup_delete_ne.
Qed.

Lemma last_is_app st l x :
  last_is st (l ++ [x]) = bool_decide (stream x = st).
Proof. unfold last_is. by rewrite last_snoc. Qed.

Lemma drop_last_app l (x : subscriber) : drop_last (l ++ [x]) = l.
Proof.
  unfold drop_last. rewrite length_app. simpl.
  replace (length l + 1 - 1) with (length l) by lia. apply take_app_length.
Qed.

Lemma unregister_address_last st (m : gmap GroupAddr (list subscriber)) a l x :
  m !! a = Some (l ++ [x]) → stream x = st →
  unregister_address st m a !! a = if decide (l = []) then None else Some l.
Proof.
  intros Ha Hst. unfold unregister_address. rewrite Ha.
  rewrite last_is_app, bool_decide_eq_true_2, drop_last_app by done.
  case_bool_decide as Hlen; case_decide as Hnil; subst; simpl in *; try lia.
  - by rewrite lookup_insert_eq.
  - by rewrite lookup_delete_eq.
  - destruct l; [done|simpl in Hlen; lia].
Qed.

(** Taking a stream out again right after the registration of an address
    list undoes the registration of its first address. *)
Lemma unregister_head_after_register r st a rest m :
  no_empty_entry m →
  unregister_address st (foldl (register_address r st) (register_address r st m a) rest) a =
  foldl (register_address r st) m rest.
Proof.
  intros Hne. apply map_eq. intros t.
  destruct (decide (t = a)) as [->|Hta].
  - set (sub := {| req := r; stream := st |}).
    set (d := default [] (m !! a)).
    assert (foldl (register_address r st) (register_address r st m a) rest !! a =
            Some ((d ++ replicate (times_listed a rest) sub) ++ [sub])) as Hreg.
    { rewrite foldl_register_lookup, register_address_lookup.
      destruct (decide (a = a)) as [_|?]; [|done]. simpl. fold sub d.
      destruct (decide (times_listed a rest = 0)) as [Hk|Hk].
      - rewrite Hk. simpl. by rewrite app_nil_r.
      - f_equal. rewrite <- !app_assoc. f_equal.
        change [sub] with (replicate 1 sub). rewrite <- !replicate_add.
        f_equal. lia. }
    rewrite (unregister_address_last st _ a _ sub Hreg) by done.
    rewrite foldl_register_lookup. fold sub d.
    case_decide as Hnil; case_decide as Hk; try done.
    + apply app_eq_nil in Hnil as [Hd _]. unfold d in Hd.
      destruct (m !! a) as [[|??]|] eqn:Hma; simpl in Hd; try done.
      by apply Hne in Hma.
    + apply app_eq_nil in Hnil as [_ Hrep].
      destruct (times_listed a rest); [done|discriminate Hrep].
    + rewrite Hk in Hnil |- *. simpl in Hnil |- *.
      rewrite app_nil_r in Hnil |- *. clear Hreg. subst d.
      by destruct (m !! a) as [subs|].
  - rewrite unregister_address_lookup_ne by done.
    rewrite !foldl_register_lookup, register_address_lookup.
    by destruct (decide (t = a)).
Qed.

Lemma foldl_unregister_after_register r st addresses m :
  no_empty_entry m →
  foldl (unregister_address st) (foldl (register_address r st) m addresses) addresses = m.
Proof.
  induction addresses as [|a rest IH]; intros Hne; simpl; [done|].
  rewrite unregister_head_after_register by done. by apply IH.
Qed.

Lemma unregister_address_absent st (m : gmap GroupAddr (list subscriber)) a :
  occ st (default [] (m !! a)) = 0 → unregister_address st m a = m.
Proof.
  intros Hocc. unfold unregister_address.
  destruct (m !! a) as [subs|] eqn:Ha; [|done]. simpl in Hocc.
  pose proof (remove_stream_absent st subs Hocc) as Hsame.
  unfold remove_stream in Hsame.
  destruct (last_is st subs) eqn:Hlast.
  - apply last_is_snoc in Hlast as (l & Heq & Hst).
    rewrite Heq, occ_app, occ_singleton, bool_decide_eq_true_2 in Hocc by done.
    lia.
  - rewrite Hsame. by apply insert_id.
Qed.

Lemma filter_others_remove_stream st subs :
  filter (λ sub, stream sub ≠ st) (remove_stream st subs) ≡ₚ
  filter (λ sub, stream sub ≠ st) subs.
Proof.
  destruct (decide (0 < occ st subs)) as [Hpos|Hzero].
  - apply remove_stream_present in Hpos as (x & Hst & Hperm).
    rewrite <- Hperm at 2. rewrite filter_cons, decide_False; [done|].
    intros Hne. by apply Hne.
  - rewrite remove_stream_absent; [done|lia].
Qed.

Lemma times_listed_notin t addresses :
  t ∉ addresses → times_listed t addresses = 0.
Proof.
  induction addresses as [|a rest IH]; [done|].
  intros [Hne Hrest]%not_elem_of_cons.
  rewrite times_listed_cons, bool_decide_eq_false_2 by done. by apply IH.
Qed.

Lemma byTopic_registerSubscriber addresses r st s t :
  byTopic (registerSubscriber addresses r st s) t =
  byTopic s t ++ replicate (times_listed t addresses) {| req := r; stream := st |}.
Proof.
  unfold byTopic. simpl. rewrite foldl_register_lookup.
  case_decide as Hk; [|done]. rewrite Hk. simpl. by rewrite app_nil_r.
Qed.

Lemma others_foldl_unregister st addresses (m : gmap GroupAddr (list subscriber)) t :
  filter (λ sub, stream sub ≠ st)
    (default [] (foldl (unregister_address st) m addresses !! t)) ≡ₚ
  filter (λ sub, stream sub ≠ st) (default [] (m !! t)).
Proof.
  revert m. induction addresses as [|a rest IH]; intros m; simpl; [done|].
  rewrite IH, lookup_unregister_address. case_bool_decide as Hta; [|done].
  subst. apply filter_others_remove_stream.
Qed.

(** X2. Registering a stream for an address list appends it: the slice of
    every topic is the slice it was, in the same order, followed by one
    entry of the stream for every time the list names the topic; a topic
    the list does not name keeps its key as it is, and the sniffers are not
    touched. *)
Theorem registerSubscriber_appends (addresses : list GroupAddr)
    (r : SubscribeRequest) (st : ServerStream) (s : Server) (t : GroupAddr) :
  byTopic (registerSubscriber addresses r st s) t =
    byTopic s t ++
    replicate (times_listed t addresses) {| req := r; stream := st |} ∧
  (t ∉ addresses →
     subscribers (registerSubscriber addresses r st s) !! t = subscribers s !! t) ∧
  sniffers (registerSubscriber addresses r st s) = sniffers s.
Proof.
  split; [apply byTopic_registerSubscriber|split; [|done]].
  intros Hnotin. simpl. rewrite foldl_register_lookup.
  rewrite decide_True; [done|]. by apply times_listed_notin.
Qed.

(** X3. Unregistering right after registering, for the same address list and
    stream, gives back the registry exactly, provided the map held no empty
    slice. *)
Theorem unregister_undoes_register (addresses : list GroupAddr)
    (r : SubscribeRequest) (st : ServerStream) (s : Server) :
  no_empty_entry (subscribers s) →
  unregisterSubscriber addresses st (registerSubscriber addresses r st s) = s.
Proof.
  intros Hne. unfold unregisterSubscriber, registerSubscriber. simpl.
  rewrite foldl_unregister_after_register by done. by destruct s.
Qed.

(** X4. Unregistering a stream that the topic map does not hold changes
    nothing. *)
Theorem unregister_absent_is_noop (addresses : list GroupAddr)
    (st : ServerStream) (s : Server) :
  stream_free st (subscribers s) →
  unregisterSubscriber addresses st s = s.
Proof.
  intros Hfree. unfold unregisterSubscriber.
  assert (foldl (unregister_address st) (subscribers s) addresses = subscribers s)
    as ->; [|by destruct s].
  induction addresses as [|a rest IH]; simpl; [done|].
  rewrite unregister_address_absent; [done|].
  by apply stream_free_alt.
Qed.

(** X5. Unregistering a stream keeps the entries of every other stream: in
    the slice of each topic they are the same entries as before, up to
    their order; a topic the address list does not name keeps its key as it
    is, and the sniffers are not touched. *)
Theorem unregisterSubscriber_keeps_others (addresses : list GroupAddr)
    (st : ServerStream) (s : Server) (t : GroupAddr) :
  filter (λ sub, stream sub ≠ st) (byTopic (unregisterSubscriber addresses st s) t)
    ≡ₚ filter (λ sub, stream sub ≠ st) (byTopic s t) ∧
  (t ∉ addresses →
     subscribers (unregisterSubscriber addresses st s) !! t = subscribers s !! t) ∧
  sniffers (unregisterSubscriber addresses st s) = sniffers s.
Proof.
  unfold byTopic. simpl. split; [|split; [|done]].
  - apply others_foldl_unregister.
  - generalize (subscribers s). induction addresses as [|a rest IH]; intros m Hnotin;
      simpl; [done|].
    apply not_elem_of_cons in Hnotin as [Hne Hrest].
    rewrite IH by done. by apply unregister_address_lookup_ne.
Qed.

(** X6. The sniffer slice: unregistering right after registering gives back
    the registry exactly, and unregistering a stream that is not a sniffer
    changes nothing. *)
Theorem unregisterSniffer_undoes_register (r : SubscribeRequest)
    (st : ServerStream) (s : Server) :
  unregisterSniffer st (registerSniffer r st s) = s ∧
  (occ st (sniffers s) = 0 → unregisterSniffer st s = s).
Proof.
  split.
  - unfold unregisterSniffer, registerSniffer. simpl.
    rewrite last_is_app, bool_decide_eq_true_2, drop_last_app by done.
    by destruct s.
  - intros Hocc. unfold unregisterSniffer.
    fold (remove_stream st (sniffers s)).
    rewrite remove_stream_absent by done. by destruct s.
Qed.

(** X7. Unregistering a sniffer that is registered takes exactly one of its
    entries out of the slice, which gets shorter by one, and keeps every
    other entry, up to the order; the topic map is not touched. *)
Theorem unregisterSniffer_removes_one (st : ServerStream) (s : Server) :
  0 < occ st (sniffers s) →
  (∃ x, stream x = st ∧ x :: sniffers (unregisterSniffer st s) ≡ₚ sniffers s) ∧
  S (length (sniffers (unregisterSniffer st s))) = length (sniffers s) ∧
  subscribers (unregisterSniffer st s) = subscribers s.
Proof.
  intros Hocc. simpl. fold (remove_stream st (sniffers s)).
  destruct (remove_stream_present st (sniffers s) Hocc) as (x & Hst & Hperm).
  split; [by exists x|]. split; [|done].
  apply Permutation_length in Hperm. exact Hperm.
Qed.

(** X8. Whatever registry operations are run from the empty registry, with
    whatever arguments, the topic map never holds a key with an empty
    slice. *)
Theorem registry_keeps_no_empty_slice (ops : list registry_op) (t : GroupAddr) :
  subscribers (run_ops ops New) !! t ≠ Some [].
Proof.
  intros Ht. eapply (run_ops_no_empty ops New); [|exact Ht|done].
  intros t' subs. simpl. by rewrite lookup_empty.
Qed.

Lemma find_stream_app st l1 x l2 :
  occ st l1 = 0 → stream x = st →
  find_stream st (l1 ++ x :: l2) = Some (length l1).
Proof.
  intros Hocc Hst. induction l1 as [|y l1 IH]; simpl.
  - by rewrite bool_decide_eq_true_2.
  - rewrite occ_cons in Hocc. case_bool_decide; [lia|].
    rewrite IH by lia. done.
Qed.

(** X9. Where the removal leaves the others: when the stream to remove is
    not in the last entry of a slice, the last entry is moved to the place
    of the first entry of the stream and the entries between keep their
    places; when it is in the last entry, that entry is dropped and nothing
    moves. *)
Theorem swap_remove_moves_last (st : ServerStream)
    (l1 l2 : list subscriber) (x z : subscriber) :
  stream x = st →
  (occ st l1 = 0 → stream z ≠ st →
     remove_stream st (l1 ++ x :: l2 ++ [z]) = l1 ++ z :: l2) ∧
  remove_stream st (l1 ++ [x]) = l1.
Proof.
  intros Hst. split.
  - intros Hocc Hz. unfold remove_stream.
    replace (l1 ++ x :: l2 ++ [z]) with ((l1 ++ x :: l2) ++ [z])
      by (by rewrite <- app_assoc).
    rewrite last_is_app, bool_decide_eq_false_2 by done.
    unfold swap_remove. rewrite <- app_assoc. simpl.
    rewrite find_stream_app by done.
    replace (l1 ++ x :: l2 ++ [z]) with ((l1 ++ x :: l2) ++ [z])
      by (by rewrite <- app_assoc).
    rewrite last_snoc. rewrite <- app_assoc. simpl.
    rewrite insert_app_r_alt by lia. rewrite Nat.sub_diag. simpl.
    replace (l1 ++ z :: l2 ++ [z]) with ((l1 ++ z :: l2) ++ [z])
      by (by rewrite <- app_assoc).
    apply drop_last_app.
  - unfold remove_stream.
    by rewrite last_is_app, bool_decide_eq_true_2, drop_last_app.
Qed.

Section Parsing.
Context `{C : Collaborators}.

Lemma parse_from_inr i addresses parsed addrs :
  parse_from i addresses parsed = inr addrs ↔
  ∃ gas, Forall2 (λ sga ga, NewGroupAddrString sga = inr ga) addresses gas ∧
         addrs = parsed ++ gas.
Proof.
  revert i parsed. induction addresses as [|sga rest IH]; intros i parsed; simpl.
  - split.
    + intros [= <-]. exists []. split; [constructor|by rewrite app_nil_r].
    + intros (gas & Hall & ->). apply Forall2_nil_inv_l in Hall as ->.
      by rewrite app_nil_r.
  - destruct (NewGroupAddrString sga) as [err|ga] eqn:Hsga.
    + split; [done|]. intros (gas & Hall & _).
      apply Forall2_cons_inv_l in Hall as (ga & gas' & Hga & _ & _). congruence.
    + rewrite IH. split.
      * intros (gas & Hall & ->). exists (ga :: gas).
        split; [by constructor|]. by rewrite <- app_assoc.
      * intros (gas & Hall & ->).
        apply Forall2_cons_inv_l in Hall as (ga' & gas' & Hga & Hall & ->).
        exists gas'. split; [done|]. rewrite <- app_assoc.
        rewrite Hsga in Hga. by injection Hga as ->.
Qed.

Lemma parse_from_inl i addresses parsed e :
  parse_from i addresses parsed = inl e ↔
  ∃ k sga err, addresses !! k = Some sga ∧ NewGroupAddrString sga = inl err ∧
    (∀ j sga', j < k → addresses !! j = Some sga' →
       ∃ ga, NewGroupAddrString sga' = inr ga) ∧
    e = Errorf "parse groupAddress(%d): %s" (Some (i + k)) err.
Proof.
  revert i parsed. induction addresses as [|sga rest IH]; intros i parsed; simpl.
  - split; [done|]. by intros (k & sga & err & Hk & _).
  - destruct (NewGroupAddrString sga) as [err|ga] eqn:Hsga.
    + split.
      * intros [= <-]. exists 0, sga, err. rewrite Nat.add_0_r.
        repeat split; try done. intros j sga' Hj. lia.
      * intros (k & sga' & err' & Hk & Herr & Hbefore & ->).
        destruct k as [|k].
        -- simpl in Hk. injection Hk as <-. rewrite Nat.add_0_r. congruence.
        -- destruct (Hbefore 0 sga) as [ga Hga]; [lia|done|congruence].
    + rewrite IH. split.
      * intros (k & sga' & err & Hk & Herr & Hbefore & ->).
        exists (S k), sga', err. repeat split; try done.
        -- intros [|j] sga'' Hj Hlook; simpl in Hlook.
           ++ injection Hlook as <-. by exists ga.
           ++ apply (Hbefore j); [lia|done].
        -- f_equal. f_equal. lia.
      * intros (k & sga' & err & Hk & Herr & Hbefore & ->).
        destruct k as [|k]; simpl in Hk.
        { injection Hk as <-. congruence. }
        exists k, sga', err. repeat split; try done.
        -- intros j sga'' Hj Hlook. apply (Hbefore (S j)); [lia|done].
        -- f_equal. f_equal. lia.
Qed.

(** X1. [parseGroupAddresses] is all or nothing: it succeeds exactly when
    every address parses, and then returns the parsed addresses in the
    order of the input; it fails exactly when some address does not parse,
    and then its error carries the index of the first such address and the
    error of the parser. *)
Theorem parseGroupAddresses_all_or_first_error (addresses : list string) :
  (∀ addrs, parseGroupAddresses addresses = inr addrs ↔
     Forall2 (λ sga ga, NewGroupAddrString sga = inr ga) addresses addrs) ∧
  (∀ e, parseGroupAddresses addresses = inl e ↔
     ∃ k sga err, addresses !! k = Some sga ∧
       NewGroupAddrString sga = inl err ∧
       (∀ j sga', j < k → addresses !! j = Some sga' →
          ∃ ga, NewGroupAddrString sga' = inr ga) ∧
       e = Errorf "parse groupAddress(%d): %s" (Some k) err).
Proof.
  split.
  - intros addrs. unfold parseGroupAddresses. rewrite parse_from_inr. simpl.
    split; [by intros (gas & Hall & ->)|]. intros Hall. by exists addrs.
  - intros e. unfold parseGroupAddresses. by rewrite parse_from_inl.
Qed.

End Parsing.

(** * More properties of the dispatcher *)

Section MoreDispatch.
Context `{C : Collaborators}.

Lemma dispatchEvent_sends_of event s :
  sends_of (trace_of (dispatchEvent event s)) =
  (λ sub, (sub, toV1SubscribeResponse event)) <$>
  filter (λ sub, not_interested sub (toV1SubscribeResponse event) = false)
    (enumerated s event).
Proof.
  rewrite dispatchEvent_run. unfold trace_of, enumerated. simpl.
  by rewrite sends_of_app, !sends_of_loop, filter_app, fmap_app.
Qed.

Lemma filter_pairs_of_stream st (resp : SubscribeResponse) (l : list subscriber) :
  filter (λ p : subscriber * SubscribeResponse, stream p.1 = st)
    ((λ sub, (sub, resp)) <$> l) =
  (λ sub, (sub, resp)) <$> filter (λ sub, stream sub = st) l.
Proof.
  induction l as [|sub l IH]; [done|].
  rewrite fmap_cons, !filter_cons. simpl.
  case_decide; by rewrite IH.
Qed.

Lemma filter_pairs_of_others st (resp : SubscribeResponse) (l : list subscriber) :
  filter (λ p : subscriber * SubscribeResponse, stream p.1 ≠ st)
    ((λ sub, (sub, resp)) <$> l) =
  (λ sub, (sub, resp)) <$> filter (λ sub, stream sub ≠ st) l.
Proof.
  induction l as [|sub l IH]; [done|].
  rewrite fmap_cons, !filter_cons. simpl.
  case_decide; by rewrite IH.
Qed.

Lemma filter_comm {A} (P Q : A → Prop) `{∀ x, Decision (P x)}
    `{∀ x, Decision (Q x)} (l : list A) :
  filter P (filter Q l) = filter Q (filter P l).
Proof.
  induction l as [|x l IH]; [done|].
  rewrite !filter_cons.
  destruct (decide (Q x)), (decide (P x)); rewrite ?filter_cons;
    repeat case_decide; try done; by rewrite IH.
Qed.

(** The messages a dispatch puts on one stream are as many as the
    interested entries of that stream among the enumerated handles. *)
Lemma sends_to_dispatch st event s :
  sends_to st (trace_of (dispatchEvent event s)) =
  occ st (filter (λ sub, not_interested sub (toV1SubscribeResponse event) = false)
            (enumerated s event)).
Proof.
  unfold sends_to, occ. rewrite dispatchEvent_sends_of.
  rewrite filter_pairs_of_stream. by rewrite length_fmap.
Qed.

Lemma occ_filter_le st (P : subscriber → Prop) `{∀ x, Decision (P x)} l :
  occ st (filter P l) ≤ occ st l.
Proof.
  unfold occ. rewrite filter_comm. apply length_filter.
Qed.

(** X10. A stream that is neither in the slice of the destination of an
    event nor among the sniffers gets no message from the dispatch of that
    event, whatever other topics it is registered for. *)
Theorem absent_stream_gets_nothing (event : GroupEvent) (s : Server)
    (st : ServerStream) :
  occ st (byTopic s (Destination event)) = 0 →
  occ st (sniffers s) = 0 →
  sends_to st (trace_of (dispatchEvent event s)) = 0.
Proof.
  intros Htopic Hsniff. rewrite sends_to_dispatch.
  pose proof (occ_filter_le st
    (λ sub, not_interested sub (toV1SubscribeResponse event) = false)
    (enumerated s event)) as Hle.
  unfold enumerated in Hle at 2. rewrite occ_app in Hle. lia.
Qed.

Lemma sends_of_flat_map {A} (f : A → list effect) (l : list A) :
  sends_of (flat_map f l) = flat_map (λ x, sends_of (f x)) l.
Proof.
  induction l as [|x l IH]; simpl; [done|]. by rewrite sends_of_app, IH.
Qed.

(** X11. The effects of the bus reader are those of one complete
    [dispatchEvent] for each inbound event that its select took before it
    took the case of the done context, in the order in which it took them,
    so that every stream gets the messages of these events in that order;
    what the select would have taken after that case is not dispatched,
    the reader having returned; the registry is left as it was found. *)
Theorem busMessageReader_dispatches_in_order (turns : list reader_turn)
    (s : Server) :
  trace_of (busMessageReader turns s) =
    flat_map (λ event, trace_of (dispatchEvent event s)) (before_done turns) ∧
  sends_of (trace_of (busMessageReader turns s)) =
    flat_map (λ event,
      (λ sub, (sub, toV1SubscribeResponse event)) <$>
      filter (λ sub, not_interested sub (toV1SubscribeResponse event) = false)
        (enumerated s event)) (before_done turns) ∧
  server_of (busMessageReader turns s) = s.
Proof.
  assert (trace_of (busMessageReader turns s) =
    flat_map (λ event, trace_of (dispatchEvent event s)) (before_done turns))
    as Htrace.
  { induction turns as [|[|event] turns IH]; simpl; [done|done|].
    rewrite <- IH. unfold bind.
    destruct (dispatchEvent event s) as [[err s1] t1] eqn:Hrun.
    rewrite dispatchEvent_run in Hrun. injection Hrun as <- <- <-.
    by destruct (busMessageReader turns s) as [[res s'] t]. }
  split; [done|]. split; [|apply busMessageReader_run].
  rewrite Htrace, sends_of_flat_map. clear Htrace.
  induction (before_done turns) as [|event events IH]; simpl; [done|].
  by rewrite dispatchEvent_sends_of, IH.
Qed.

(** X12. Unregistering a stream changes nothing for the others: the dispatch
    of any event puts on the other streams the same messages after it as
    before it, up to their order. *)
Theorem unregister_leaves_messages_of_others (addresses : list GroupAddr)
    (st : ServerStream) (s : Server) (event : GroupEvent) :
  filter (λ p : subscriber * SubscribeResponse, stream p.1 ≠ st)
    (sends_of (trace_of (dispatchEvent event (unregisterSubscriber addresses st s))))
  ≡ₚ
  filter (λ p : subscriber * SubscribeResponse, stream p.1 ≠ st)
    (sends_of (trace_of (dispatchEvent event s))).
Proof.
  rewrite !dispatchEvent_sends_of.
  rewrite !filter_pairs_of_others.
  apply fmap_Permutation. rewrite !(filter_comm (λ sub, stream sub ≠ st)).
  apply filter_Permutation. unfold enumerated. rewrite !filter_app.
  apply Permutation_app; [|done].
  unfold byTopic. simpl. apply others_foldl_unregister.
Qed.

End MoreDispatch.

(** * More properties of the handlers *)

Section MoreCalls.
Context `{C : Collaborators}.

Lemma snd_NoDup_inj {A} (l : list (A * ServerStream)) a b c :
  NoDup l.*2 → (a, c) ∈ l → (b, c) ∈ l → a = b.
Proof.
  induction l as [|[x y] l IH]; intros Hnodup Ha Hb.
  { by apply elem_of_nil in Ha. }
  rewrite fmap_cons in Hnodup. apply NoDup_cons in Hnodup as [Hfresh Hnodup].
  simpl in Hfresh.
  apply elem_of_cons in Ha as [Ha|Ha]; apply elem_of_cons in Hb as [Hb|Hb].
  - congruence.
  - injection Ha as -> ->. exfalso. apply Hfresh.
    apply (list_elem_of_fmap_2 snd _ _ Hb).
  - injection Hb as -> ->. exfalso. apply Hfresh.
    apply (list_elem_of_fmap_2 snd _ _ Ha).
  - by apply IH.
Qed.

(** Every entry of a registry that calls have built is the request and the
    stream of one of the calls. *)
Lemma Subscribe_register_entries (calls : list (SubscribeRequest * ServerStream))
    s call :
  call ∈ calls →
  (∀ t sub, sub ∈ byTopic s t → (req sub, stream sub) ∈ calls) →
  (∀ sub, sub ∈ sniffers s → (req sub, stream sub) ∈ calls) →
  (∀ t sub, sub ∈ byTopic (Subscribe_register s call) t →
     (req sub, stream sub) ∈ calls) ∧
  (∀ sub, sub ∈ sniffers (Subscribe_register s call) →
     (req sub, stream sub) ∈ calls).
Proof.
  intros Hcall Htopics Hsniffers. destruct call as [r st].
  unfold Subscribe_register. simpl.
  destruct (parseGroupAddresses (GroupAddresses r)) as [err|addrs]; [done|].
  case_bool_decide.
  - split; [|done]. intros t sub. rewrite byTopic_registerSubscriber.
    intros [Hin|Hin]%elem_of_app; [by eapply Htopics|].
    apply elem_of_replicate in Hin as [-> _]. done.
  - split; [done|]. intros sub. simpl.
    intros [Hin|Hin]%elem_of_app; [by apply Hsniffers|].
    apply list_elem_of_singleton in Hin as ->. done.
Qed.

Lemma register_calls_entries (calls0 calls : list (SubscribeRequest * ServerStream)) s :
  (∀ call, call ∈ calls → call ∈ calls0) →
  (∀ t sub, sub ∈ byTopic s t → (req sub, stream sub) ∈ calls0) →
  (∀ sub, sub ∈ sniffers s → (req sub, stream sub) ∈ calls0) →
  (∀ t sub, sub ∈ byTopic (foldl Subscribe_register s calls) t →
     (req sub, stream sub) ∈ calls0) ∧
  (∀ sub, sub ∈ sniffers (foldl Subscribe_register s calls) →
     (req sub, stream sub) ∈ calls0).
Proof.
  revert s. induction calls as [|call rest IH]; intros s Hsub Htopics Hsniffers;
    simpl; [done|].
  destruct (Subscribe_register_entries calls0 s call) as [Ht Hs]; try done.
  { apply Hsub. left. }
  apply IH; try done. intros call' Hin. apply Hsub. by right.
Qed.

Lemma occ_filter_uniform st (P : subscriber → Prop) `{∀ x, Decision (P x)}
    (Q : Prop) `{Decision Q} l :
  (∀ sub, sub ∈ l → stream sub = st → (P sub ↔ Q)) →
  occ st (filter P l) = if decide Q then occ st l else 0.
Proof.
  induction l as [|sub l IH]; intros Hall.
  { by case_decide. }
  rewrite filter_cons, (occ_cons st sub l).
  assert (occ st (filter P l) = if decide Q then occ st l else 0) as IH'.
  { apply IH. intros sub' Hin. apply Hall. by right. }
  destruct (decide (stream sub = st)) as [Hst|Hst].
  - rewrite bool_decide_eq_true_2 by done.
    pose proof (Hall sub ltac:(left) Hst) as Hiff.
    destruct (decide (P sub)) as [HP|HP].
    + rewrite occ_cons, bool_decide_eq_true_2, IH' by done.
      rewrite decide_True by (by apply Hiff). by rewrite decide_True by (by apply Hiff).
    + rewrite IH'. rewrite !decide_False; [done|..]; intros HQ; by apply HP, Hiff.
  - rewrite bool_decide_eq_false_2 by done.
    destruct (decide (P sub)); [rewrite occ_cons, bool_decide_eq_false_2 by done|];
      rewrite IH'; by case_decide.
Qed.

(** X13. In a registry that Subscribe calls with streams of their own have
    built, the dispatch of an event puts on the stream of a call as many
    messages as the request of the call lists the destination, one message
    if the call is a sniffer, and none if the kind filter of the request
    does not admit the event: once for a topic listed once, twice for a
    topic listed twice. *)
Theorem messages_per_registered_stream
    (calls : list (SubscribeRequest * ServerStream))
    (r : SubscribeRequest) (h : ServerStream) (addrs : list GroupAddr)
    (event : GroupEvent) :
  NoDup calls.*2 → (r, h) ∈ calls →
  parseGroupAddresses (GroupAddresses r) = inr addrs →
  sends_to h (trace_of (dispatchEvent event (foldl Subscribe_register New calls))) =
    if not_interested {| req := r; stream := h |} (toV1SubscribeResponse event)
    then 0
    else times_listed (Destination event) addrs +
         (if bool_decide (addrs = []) then 1 else 0).
Proof.
  intros Hnodup Hin Hparse. set (s := foldl Subscribe_register New calls).
  destruct (register_calls_occ calls New r h addrs Hnodup Hin Hparse) as [Ht Hs].
  fold s in Ht, Hs.
  destruct (register_calls_entries calls calls New) as [Hte Hse]; try done.
  { intros t sub. unfold byTopic. simpl. rewrite lookup_empty. simpl.
    by intros ?%elem_of_nil. }
  { intros sub. simpl. by intros ?%elem_of_nil. }
  fold s in Hte, Hse.
  rewrite sends_to_dispatch.
  rewrite (occ_filter_uniform h _
    (not_interested {| req := r; stream := h |} (toV1SubscribeResponse event) = false)).
  - unfold enumerated. rewrite occ_app, Ht, Hs. simpl.
    destruct (not_interested _ _); by case_decide.
  - intros sub Hsub Hst.
    assert ((req sub, stream sub) ∈ calls) as Hcall.
    { unfold enumerated in Hsub. apply elem_of_app in Hsub as [Hsub|Hsub];
        [by eapply Hte|by apply Hse]. }
    rewrite Hst in Hcall.
    assert (req sub = r) as Hreq by (by eapply snd_NoDup_inj).
    unfold not_interested. simpl. by rewrite Hreq.
Qed.

Lemma Subscribe_call_done_clean r st addrs parked s :
  parseGroupAddresses (GroupAddresses r) = inr addrs →
  no_empty_entry (subscribers s) →
  stream_free st (subscribers s) → occ st (sniffers s) = 0 →
  Forall (λ o, op_stream o ≠ st) parked →
  stream_free st (subscribers (Subscribe r st parked CallCtxDone s).2) ∧
  occ st (sniffers (Subscribe r st parked CallCtxDone s).2) = 0.
Proof.
  intros Hparse Hne Hfree Hsniff Hops.
  destruct (Subscribe_registered_occ r st addrs s Hparse) as (Ht & Hs & Hne1).
  set (s1 := if bool_decide (0 < length addrs)
             then registerSubscriber addrs r st s
             else registerSniffer r st s) in *.
  assert (∀ t, occ st (byTopic (run_ops parked s1) t) = times_listed t addrs) as Ht2.
  { intros t. rewrite run_ops_occ_topic, Ht by done.
    apply stream_free_alt with (t := t) in Hfree. unfold byTopic. lia. }
  assert (occ st (sniffers (run_ops parked s1)) =
          (if bool_decide (addrs = []) then 1 else 0)) as Hs2.
  { rewrite run_ops_occ_sniffers, Hs by done. lia. }
  unfold Subscribe. rewrite Hparse. fold s1. simpl.
  destruct (decide (0 < length addrs)) as [Hlen|Hlen].
  - rewrite !(bool_decide_eq_true_2 (0 < length addrs)) by done.
    destruct (unregister_registered_exactly addrs st (run_ops parked s1))
      as [_ Hfree3]; [by apply run_ops_no_empty; auto|done|].
    split; [done|]. simpl. rewrite Hs2.
    rewrite bool_decide_eq_false_2; [done|]. intros ->. simpl in Hlen. lia.
  - rewrite !(bool_decide_eq_false_2 (0 < length addrs)) by done.
    assert (addrs = []) as Hnil by (apply nil_length_inv; lia).
    simpl. split.
    + apply stream_free_alt. intros t. specialize (Ht2 t).
      unfold byTopic in Ht2. rewrite Ht2, Hnil. done.
    + fold (remove_stream st (sniffers (run_ops parked s1))).
      rewrite occ_remove_stream, bool_decide_eq_true_2 by done. rewrite Hs2.
      by rewrite bool_decide_eq_true_2.
Qed.

(** X14. Once a Subscribe call with a fresh stream has returned because the
    context of the call was done, no later dispatch puts a message on its
    stream, whatever the other calls did to the registry while it was
    parked and do to it afterwards. *)
Theorem no_message_after_call_done (r : SubscribeRequest) (st : ServerStream)
    (addrs : list GroupAddr) (parked later : list registry_op) (s : Server)
    (event : GroupEvent) :
  parseGroupAddresses (GroupAddresses r) = inr addrs →
  no_empty_entry (subscribers s) →
  stream_free st (subscribers s) → occ st (sniffers s) = 0 →
  Forall (λ o, op_stream o ≠ st) parked →
  Forall (λ o, op_stream o ≠ st) later →
  sends_to st (trace_of (dispatchEvent event
    (run_ops later (Subscribe r st parked CallCtxDone s).2))) = 0.
Proof.
  intros Hparse Hne Hfree Hsniff Hparked Hlater.
  destruct (Subscribe_call_done_clean r st addrs parked s) as [Hf Hs]; try done.
  rewrite sends_to_dispatch.
  pose proof (occ_filter_le st
    (λ sub, not_interested sub (toV1SubscribeResponse event) = false)
    (enumerated (run_ops later (Subscribe r st parked CallCtxDone s).2) event))
    as Hle.
  unfold enumerated in Hle at 2.
  rewrite occ_app, run_ops_occ_topic, run_ops_occ_sniffers, Hs in Hle by done.
  apply stream_free_alt with (t := Destination event) in Hf.
  unfold byTopic in Hle. lia.
Qed.

Lemma parse_from_fails i addresses parsed sga err :
  sga ∈ addresses → NewGroupAddrString sga = inl err →
  ∃ e, parse_from i addresses parsed = inl e.
Proof.
  intros Hin Herr. revert i parsed.
  induction addresses as [|a rest IH]; intros i parsed; simpl.
  { by apply elem_of_nil in Hin. }
  destruct (NewGroupAddrString a) as [e|ga] eqn:Ha; [by eexists|].
  apply elem_of_cons in Hin as [->|Hin]; [congruence|]. by apply IH.
Qed.

(** X15. A Subscribe request with an address that does not parse, wherever
    in the list, registers nothing: the call returns an InvalidArgument
    error at once and the registry is exactly as before. *)
Theorem Subscribe_malformed_registers_nothing (r : SubscribeRequest)
    (st : ServerStream) (parked : list registry_op) (w : wake) (s : Server)
    (sga : string) (err : error) :
  sga ∈ GroupAddresses r → NewGroupAddrString sga = inl err →
  ∃ e, Subscribe r st parked w s = (Some (NewError CodeInvalidArgument e), s).
Proof.
  intros Hin Herr.
  destruct (parse_from_fails 0 (GroupAddresses r) [] sga err Hin Herr) as [e He].
  exists e. unfold Subscribe, parseGroupAddresses. by rewrite He.
Qed.

(** X16. A Subscribe call that nothing interleaves with and that returns
    because the context of the call is done leaves the registry exactly as
    it found it, topic map and sniffers, provided the map held no empty
    slice. *)
Theorem Subscribe_alone_restores_registry (r : SubscribeRequest)
    (st : ServerStream) (addrs : list GroupAddr) (s : Server) :
  parseGroupAddresses (GroupAddresses r) = inr addrs →
  no_empty_entry (subscribers s) →
  Subscribe r st [] CallCtxDone s = (None, s).
Proof.
  intros Hparse Hne. unfold Subscribe. rewrite Hparse. simpl.
  case_bool_decide.
  - unfold unregisterSubscriber, registerSubscriber. simpl.
    rewrite foldl_unregister_after_register by done. by destruct s.
  - unfold unregisterSniffer, registerSniffer. simpl.
    rewrite last_is_app, bool_decide_eq_true_2, drop_last_app by done.
    by destruct s.
Qed.

End MoreCalls.

Section MoreMapping.
Context `{C : Collaborators}.

(** X17. What Publish sends comes back with its kind and its data: the
    message made from the event of a publish request carries the data of
    the request and the kind of the request, Write when the request says
    Unspecified; it never carries the kind Unspecified. *)
Theorem published_kind_and_data_come_back (r : PublishRequest)
    (event : GroupEvent) :
  fromV1PublishRequest r = inr event →
  resp_Event (toV1SubscribeResponse event) =
    (if bool_decide (pub_Event r = Event_EVENT_UNSPECIFIED)
     then Event_EVENT_WRITE else pub_Event r) ∧
  resp_Data (toV1SubscribeResponse event) = pub_Data r ∧
  resp_Event (toV1SubscribeResponse event) ≠ Event_EVENT_UNSPECIFIED.
Proof.
  unfold fromV1PublishRequest.
  destruct (NewGroupAddrString (pub_GroupAddress r)) as [err|ga]; [done|].
  case_bool_decide.
  - intros [= <-]. simpl. by destruct (pub_Event r).
  - destruct (NewIndividualAddrString (pub_PhysicalAddress r)); [done|].
    intros [= <-]. simpl. by destruct (pub_Event r).
Qed.

(** X18. The addresses of a publish request: the conversion succeeds exactly
    when the group address parses and the physical address is empty or
    parses; the destination of the event is the parsed group address, its
    source the parsed physical address, or zero when the request has none
    (the parser is then not asked). A group address that does not parse is
    reported before the physical address is looked at. *)
Theorem fromV1PublishRequest_addresses (r : PublishRequest) :
  (∀ event, fromV1PublishRequest r = inr event →
     NewGroupAddrString (pub_GroupAddress r) = inr (Destination event) ∧
     (pub_PhysicalAddress r = "" → Source event = 0%N) ∧
     (pub_PhysicalAddress r ≠ "" →
        NewIndividualAddrString (pub_PhysicalAddress r) = inr (Source event))) ∧
  (∀ e, fromV1PublishRequest r = inl e ↔
     (∃ err, NewGroupAddrString (pub_GroupAddress r) = inl err ∧
             e = Errorf "parse groupAddress: %s" None err) ∨
     (∃ ga err, NewGroupAddrString (pub_GroupAddress r) = inr ga ∧
                pub_PhysicalAddress r ≠ "" ∧
                NewIndividualAddrString (pub_PhysicalAddress r) = inl err ∧
                e = Errorf "parse physicalAddress: %s" None err)).
Proof.
  assert (String.length (pub_PhysicalAddress r) = 0 ↔ pub_PhysicalAddress r = "")
    as Hlen.
  { destruct (pub_PhysicalAddress r); simpl; split; (done || lia). }
  unfold fromV1PublishRequest.
  destruct (NewGroupAddrString (pub_GroupAddress r)) as [err|ga] eqn:Hga.
  - split; [done|]. intros e. split.
    + intros [= <-]. left. by exists err.
    + intros [(err' & [= <-] & ->)|(ga & err' & Hga' & _)]; done.
  - case_bool_decide as Hempty; rewrite Hlen in Hempty.
    + split.
      * intros event [= <-]. simpl. by split.
      * intros e. split; [done|].
        intros [(err & Hga' & _)|(ga' & err & _ & Hne & _)]; done.
    + destruct (NewIndividualAddrString (pub_PhysicalAddress r)) as [err|src] eqn:Hsrc.
      * split; [done|]. intros e. split.
        -- intros [= <-]. right. by exists ga, err.
        -- intros [(err' & Hga' & _)|(ga' & err' & _ & _ & [= <-] & ->)]; done.
      * split.
        -- intros event [= <-]. simpl. by split.
        -- intros e. split; [done|].
           intros [(err & Hga' & _)|(ga' & err & _ & _ & Hsrc' & _)]; done.
Qed.

(** X19. Publish never changes the registry and sends to the bus at most
    once. A request whose addresses do not parse is answered with an
    InvalidArgument error carrying the parse error, with no effect at all:
    nothing goes to the bus and nothing to any stream; and Publish returns
    an InvalidArgument error only then. *)
Theorem Publish_invalid_has_no_effect (r : PublishRequest) (s : Server) :
  server_of (Publish r s) = s ∧
  length (bus_sends_of (trace_of (Publish r s))) ≤ 1 ∧
  (∀ err, fromV1PublishRequest r = inl err →
     result_of (Publish r s) = inl (NewError CodeInvalidArgument err) ∧
     trace_of (Publish r s) = []) ∧
  (∀ e, result_of (Publish r s) = inl (NewError CodeInvalidArgument e) →
     fromV1PublishRequest r = inl e).
Proof.
  destruct (fromV1PublishRequest r) as [err|event] eqn:Hreq.
  - rewrite (Publish_invalid r s err Hreq). unfold result_of, trace_of. simpl.
    split; [done|]. split; [lia|]. split.
    + by intros ? [= <-].
    + by intros e [= <-].
  - destruct (tunnel_Send event) as [err|] eqn:Hsend.
    + rewrite (Publish_send_failed r s event err) by done.
      unfold result_of. simpl. split; [done|]. split; [lia|]. by split.
    + rewrite (Publish_sent r s event) by done.
      pose proof (dispatchEvent_bus_sends event s) as Hbus.
      unfold result_of, server_of, trace_of in *. simpl.
      split; [done|]. split; [|by split].
      change (bus_sends_of (TunnelSend event :: ?t)) with (event :: bus_sends_of t).
      rewrite Hbus. simpl. lia.
Qed.

(** X20. The errors of SubscribeUnary: it fails for two reasons only, a
    non-empty duration that does not parse, answered with InvalidArgument,
    and a failure to open the internal stream, whose error is returned as
    it is; the construction of the internal client never fails. *)
Theorem SubscribeUnary_errors (config : ClientConfig)
    (r : SubscribeUnaryRequest) (e : error) :
  SubscribeUnary config r = inl e ↔
  (For r ≠ "" ∧ ∃ err, ParseDuration (For r) = inl err ∧
     e = NewError CodeInvalidArgument (Errorf "parsing 'for': %v" None err)) ∨
  (∃ timeout, validate_for (For r) = inr timeout ∧
     (client_Subscribe (NewClient config).1 timeout
        (unary_SubscribeRequest r)).2 = Some e).
Proof.
  unfold SubscribeUnary. simpl.
  destruct (validate_for (For r)) as [ve|timeout] eqn:Hvalid.
  - unfold validate_for in Hvalid. case_bool_decide as Hfor; [|done].
    destruct (ParseDuration (For r)) as [err|dur] eqn:Hdur; [|done].
    injection Hvalid as <-. split.
    + intros [= <-]. left. split; [done|]. by exists err.
    + intros [(_ & err' & [= <-] & ->)|(timeout & Ht & _)]; done.
  - destruct (client_Subscribe _ timeout (unary_SubscribeRequest r))
      as [opened err] eqn:Hopen.
    destruct err as [err|]; simpl.
    + split.
      * intros [= <-]. right. exists timeout. split; [done|].
        simpl in Hopen. by rewrite Hopen.
      * intros [(Hfor & err' & Hdur & _)|(timeout' & [= <-] & Herr)].
        -- unfold validate_for in Hvalid.
           rewrite bool_decide_eq_true_2, Hdur in Hvalid by done. done.
        -- simpl in Hopen. rewrite Hopen in Herr. simpl in Herr. congruence.
    + split; [done|].
      intros [(Hfor & err' & Hdur & _)|(timeout' & [= <-] & Herr)].
      * unfold validate_for in Hvalid.
        rewrite bool_decide_eq_true_2, Hdur in Hvalid by done. done.
      * simpl in Hopen. rewrite Hopen in Herr. done.
Qed.

End MoreMapping.

(** * Authentication, configuration, log handler and command line *)

Lemma strip_prefix_app prefix s : strip_prefix prefix (prefix +:+ s) = Some s.
Proof.
  induction prefix as [|a prefix IH]; simpl; [by destruct s|].
  by rewrite bool_decide_eq_true_2.
Qed.

Lemma string_length_zero (s : string) : String.length s = 0 ↔ s = "".
Proof. destruct s; simpl; split; (done || lia). Qed.

Lemma AuthConfig_Validate_None c :
  AuthConfig_Validate c = None ↔
  auth_Enabled c = false ∨ (auth_Header c ≠ "" ∧ auth_SecretKey c ≠ "").
Proof.
  unfold AuthConfig_Validate. destruct (auth_Enabled c); simpl; [|split; auto].
  case_bool_decide as Hh; rewrite string_length_zero in Hh.
  { split; [done|]. by intros [?|[? _]]. }
  case_bool_decide as Hk; rewrite string_length_zero in Hk.
  { split; [done|]. by intros [?|[_ ?]]. }
  split; [|done]. intros _. by right.
Qed.

Section MoreAuth.
Context `{G : GoStrings}.

(** X21. The header value that the interceptor of the client builds from an
    auth configuration is accepted by a server with the same scheme and
    secret key, both by the key check and by [authenticateRPC], provided
    [strings.TrimSpace] leaves the secret key as it is (a key with white
    space at an end is trimmed before the comparison and so never
    matches). *)
Theorem interceptor_value_is_accepted (c : AuthConfig) :
  strings_TrimSpace (auth_SecretKey c) = auth_SecretKey c →
  authenticateStaticSecretKey c (hi_value (NewAuthInterceptor c)) = None ∧
  authenticateRPC c (hi_value (NewAuthInterceptor c)) = None.
Proof.
  intros Htrim.
  assert (authenticateStaticSecretKey c (hi_value (NewAuthInterceptor c)) = None)
    as Hkey.
  { unfold authenticateStaticSecretKey, strings_CutPrefix. simpl.
    rewrite strip_prefix_app, Htrim. unfold ConstantTimeCompare.
    rewrite (bool_decide_eq_true_2 (auth_SecretKey c = auth_SecretKey c)) by done.
    by rewrite bool_decide_eq_false_2 by auto. }
  split; [done|]. unfold authenticateRPC. rewrite Hkey.
  rewrite bool_decide_eq_false_2; [done|]. rewrite string_length_zero. simpl.
  by destruct (auth_Scheme c).
Qed.

(** X22. What [authenticateRPC] accepts: a header value is accepted exactly
    when it is not empty and, once the scheme and one blank are cut from
    its front, if they are there, and the rest is trimmed, it is the secret
    key; so the scheme is optional. A missing or empty header is answered
    with the missing-header error, any other rejected value with the
    invalid-credentials error. *)
Theorem authenticateRPC_accepts (c : AuthConfig) (val : string) :
  (authenticateRPC c val = None ↔
     val ≠ "" ∧
     strings_TrimSpace (strings_CutPrefix val (auth_Scheme c +:+ " ")).1 =
       auth_SecretKey c) ∧
  (val = "" →
     authenticateRPC c val =
       Some (authn_Errorf "missing %s header" (auth_Header c))) ∧
  (val ≠ "" → authenticateRPC c val ≠ None →
     authenticateRPC c val = Some (Unauthenticated ErrInvalidAuthCredentials)).
Proof.
  unfold authenticateRPC, authenticateStaticSecretKey, ConstantTimeCompare.
  destruct (strings_CutPrefix val (auth_Scheme c +:+ " ")) as [cut found].
  simpl. case_bool_decide as Hlen; rewrite string_length_zero in Hlen.
  - split; [|split; [done|]].
    + split; [done|]. by intros [? _].
    + by intros ?.
  - destruct (decide (strings_TrimSpace cut = auth_SecretKey c)) as [Heq|Hne].
    + rewrite (bool_decide_eq_true_2 _ Heq).
      rewrite bool_decide_eq_false_2 by auto.
      split; [by split|]. split; [done|]. by intros _ ?.
    + rewrite (bool_decide_eq_false_2 _ Hne).
      rewrite bool_decide_eq_true_2 by done.
      split; [|by split]. split; [done|]. by intros [_ ?].
Qed.

End MoreAuth.

(** X23. [Config.Validate] accepts a configuration exactly when the gateway
    host is not empty, the gateway port is not zero and the auth section of
    the RPC configuration is disabled or names a header and a secret key.
    The validation of the RPC section is that of its auth section alone:
    the webserver section has no part in it, not even one that
    [WebserverConfig.Validate] rejects. *)
Theorem Config_Validate_accepts (c : Config) :
  (Config_Validate c = None ↔
     GatwewayHost (KNX c) ≠ "" ∧ GatwewayPort (KNX c) ≠ 0%Z ∧
     (auth_Enabled (rpc_Auth (RPC c)) = false ∨
      (auth_Header (rpc_Auth (RPC c)) ≠ "" ∧
       auth_SecretKey (rpc_Auth (RPC c)) ≠ ""))) ∧
  RPCConfig_Validate (RPC c) = AuthConfig_Validate (rpc_Auth (RPC c)) ∧
  (∀ w, Config_Validate
          {| KNX := KNX c;
             RPC := {| rpc_Auth := rpc_Auth (RPC c); rpc_Webserver := w |} |} =
        Config_Validate c).
Proof.
  assert (RPCConfig_Validate (RPC c) = AuthConfig_Validate (rpc_Auth (RPC c)))
    as Hrpc.
  { unfold RPCConfig_Validate. by destruct (AuthConfig_Validate _). }
  split; [|split; [done|]].
  - unfold Config_Validate. rewrite Hrpc. unfold KNXConfig_Validate.
    repeat case_bool_decide; rewrite ?string_length_zero in *.
    + split; [done|]. by intros [? _].
    + split; [done|]. by intros (_ & ? & _).
    + rewrite <- AuthConfig_Validate_None.
      destruct (AuthConfig_Validate _); split; try done. by intros (_ & _ & ?).
  - intros w. unfold Config_Validate, RPCConfig_Validate. done.
Qed.

(** X24. [WebserverConfig.Validate] accepts every disabled webserver section,
    whatever its fields; an enabled one exactly when host and port are set
    and the swagger and metrics sections are each disabled or complete (a
    path, and for the metrics an auth section that is disabled or names a
    header and a secret key). *)
Theorem WebserverConfig_Validate_accepts (c : WebserverConfig) :
  WebserverConfig_Validate c = None ↔
  web_Enabled c = false ∨
  (web_Host c ≠ "" ∧ web_Port c ≠ 0%Z ∧
   (swagger_Enabled (web_Swagger c) = false ∨
    swagger_Path (web_Swagger c) ≠ "") ∧
   (metrics_Enabled (web_Metrics c) = false ∨
    (metrics_Path (web_Metrics c) ≠ "" ∧
     (auth_Enabled (metrics_Auth (web_Metrics c)) = false ∨
      (auth_Header (metrics_Auth (web_Metrics c)) ≠ "" ∧
       auth_SecretKey (metrics_Auth (web_Metrics c)) ≠ ""))))).
Proof.
  assert (SwaggerConfig_Validate (web_Swagger c) = None ↔
          swagger_Enabled (web_Swagger c) = false ∨
          swagger_Path (web_Swagger c) ≠ "") as Hswagger.
  { unfold SwaggerConfig_Validate.
    destruct (swagger_Enabled _); simpl; [|split; auto].
    case_bool_decide as Hp; rewrite string_length_zero in Hp.
    - split; [done|]. by intros [?|?].
    - split; [|done]. intros _. by right. }
  assert (MetricsConfig_Validate (web_Metrics c) = None ↔
          metrics_Enabled (web_Metrics c) = false ∨
          (metrics_Path (web_Metrics c) ≠ "" ∧
           (auth_Enabled (metrics_Auth (web_Metrics c)) = false ∨
            (auth_Header (metrics_Auth (web_Metrics c)) ≠ "" ∧
             auth_SecretKey (metrics_Auth (web_Metrics c)) ≠ "")))) as Hmetrics.
  { unfold MetricsConfig_Validate.
    destruct (metrics_Enabled _); simpl; [|split; auto].
    rewrite <- AuthConfig_Validate_None.
    case_bool_decide as Hp; rewrite string_length_zero in Hp.
    - split; [done|]. by intros [?|[? _]].
    - destruct (AuthConfig_Validate _).
      + split; [done|]. by intros [?|[_ ?]].
      + split; [|done]. intros _. by right. }
  rewrite <- Hswagger, <- Hmetrics. unfold WebserverConfig_Validate.
  destruct (web_Enabled c); simpl; [|split; auto].
  case_bool_decide as Hh; rewrite string_length_zero in Hh.
  { split; [done|]. by intros [?|[? _]]. }
  case_bool_decide as Hp.
  { split; [done|]. by intros [?|(_ & ? & _)]. }
  destruct (SwaggerConfig_Validate _).
  { split; [done|]. by intros [?|(_ & _ & ? & _)]. }
  destruct (MetricsConfig_Validate _).
  { split; [done|]. by intros [?|(_ & _ & _ & ?)]. }
  split; [|done]. intros _. by right.
Qed.

(** [strings.TrimSuffix] cuts the suffix off a string that ends with it and
    returns any other string as it is. *)
Lemma strings_TrimSuffix_spec s suffix :
  (∃ p, s = p +:+ suffix ∧ strings_TrimSuffix s suffix = p) ∨
  ((∀ p, s ≠ p +:+ suffix) ∧ strings_TrimSuffix s suffix = s).
Proof.
  induction s as [|a rest IH]; simpl.
  - destruct suffix as [|b suffix].
    + left. by exists "".
    + right. split; [|done]. by intros [|??].
  - case_bool_decide as Hwhole.
    + left. exists "". by rewrite <- Hwhole.
    + destruct IH as [(p & -> & ->)|[Hno ->]].
      * left. by exists (String a p).
      * right. split; [|done]. intros [|b p]; simpl; [done|].
        intros [= -> Hrest]. by apply (Hno p).
Qed.

Lemma string_length_append (p s : string) :
  String.length (p +:+ s) = String.length p + String.length s.
Proof. induction p as [|a p IH]; simpl; [done|]. by rewrite IH. Qed.

Lemma append_inj_l (p q suffix : string) :
  p +:+ suffix = q +:+ suffix → p = q.
Proof.
  revert q. induction p as [|a p IH]; intros [|b q] Heq; simpl in Heq.
  - done.
  - apply (f_equal String.length) in Heq.
    rewrite !string_length_append in Heq. simpl in Heq. lia.
  - apply (f_equal String.length) in Heq.
    rewrite !string_length_append in Heq. simpl in Heq. lia.
  - injection Heq as -> Heq. f_equal. by apply IH.
Qed.

(** X25. The log handler given to the bus library logs the format without
    its final line feed, one line feed and no more, and a format that does
    not end with a line feed as it is; it cancels the context of the
    server exactly for the format [Worker exited], with or without one
    line feed after it, and for no other format. *)
Theorem Printf_cancels_on_worker_exit (format : string) :
  ((knxLogHandler_Printf format).2 = true ↔
     format = "Worker exited" ∨ format = "Worker exited" +:+ newline) ∧
  (∀ p, format = p +:+ newline → (knxLogHandler_Printf format).1 = p) ∧
  ((∀ p, format ≠ p +:+ newline) → (knxLogHandler_Printf format).1 = format).
Proof.
  unfold knxLogHandler_Printf. simpl. rewrite bool_decide_eq_true.
  destruct (strings_TrimSuffix_spec format newline) as [(p & Hformat & Hp)|[Hno Hsame]].
  - rewrite Hp. split; [|split].
    + split.
      * intros ->. by right.
      * intros [Heq|Heq].
        -- rewrite Heq in Hp. vm_compute in Hp. subst p. rewrite Heq in Hformat.
           discriminate Hformat.
        -- rewrite Heq in Hp. vm_compute in Hp. by subst p.
    + intros q Hq. rewrite Hq in Hformat. symmetry. by eapply append_inj_l.
    + intros Hno. exfalso. by apply (Hno p).
  - rewrite Hsame. split; [|split].
    + split; [by left|].
      intros [Heq|Heq]; [done|]. exfalso. by apply (Hno "Worker exited").
    + intros q Hq. exfalso. by apply (Hno q).
    + done.
Qed.

Section CommandLine.
Context `{C : Collaborators}.

(** X26. The publish command: without [--event] it publishes a write when
    data is given and a read otherwise; with [--event] read, write or
    response it publishes that kind; any other word is refused before
    anything is sent; it never asks for the kind Unspecified. The event
    that the server makes of its request has the command of that very
    kind, GroupRead, GroupWrite or GroupResponse, and subscribers see that
    kind. *)
Theorem publish_command_kind (eventType : string) (args : list string) :
  (∀ ev, publish_event_type eventType args = inr ev ↔
     (eventType = "" ∧
      ev = if bool_decide (1 < length args) then Event_EVENT_WRITE
           else Event_EVENT_READ) ∨
     (eventType = "read" ∧ ev = Event_EVENT_READ) ∨
     (eventType = "write" ∧ ev = Event_EVENT_WRITE) ∨
     (eventType = "response" ∧ ev = Event_EVENT_RESPONSE)) ∧
  (∀ ev, publish_event_type eventType args = inr ev →
     ev ≠ Event_EVENT_UNSPECIFIED ∧
     ∀ topic from data event,
       fromV1PublishRequest
         {| pub_GroupAddress := topic; pub_PhysicalAddress := from;
            pub_Event := ev; pub_Data := data |} = inr event →
       resp_Event (toV1SubscribeResponse event) = ev ∧
       (ev = Event_EVENT_READ → Command event = GroupRead) ∧
       (ev = Event_EVENT_WRITE → Command event = GroupWrite) ∧
       (ev = Event_EVENT_RESPONSE → Command event = GroupResponse)) ∧
  ((∃ e, publish_event_type eventType args = inl e) ↔
     eventType ≠ "" ∧ eventType ≠ "read" ∧ eventType ≠ "write" ∧
     eventType ≠ "response").
Proof.
  assert (∀ ev, publish_event_type eventType args = inr ev ↔
     (eventType = "" ∧
      ev = if bool_decide (1 < length args) then Event_EVENT_WRITE
           else Event_EVENT_READ) ∨
     (eventType = "read" ∧ ev = Event_EVENT_READ) ∨
     (eventType = "write" ∧ ev = Event_EVENT_WRITE) ∨
     (eventType = "response" ∧ ev = Event_EVENT_RESPONSE)) as Hswitch.
  { intros ev. unfold publish_event_type.
    destruct (decide (eventType = "")) as [->|H0].
    { simpl. split.
      - intros Hev. left. split; [done|]. case_bool_decide; by simplify_eq.
      - intros [[_ ->]|[[? _]|[[? _]|[? _]]]]; try done. by case_bool_decide. }
    rewrite (bool_decide_eq_false_2 _ H0).
    destruct (decide (eventType = "read")) as [->|H1].
    { simpl. split.
      - intros [= <-]. right. by left.
      - by intros [[? _]|[[_ ->]|[[? _]|[? _]]]]. }
    rewrite (bool_decide_eq_false_2 _ H1).
    destruct (decide (eventType = "write")) as [->|H2].
    { simpl. split.
      - intros [= <-]. right. right. by left.
      - by intros [[? _]|[[? _]|[[_ ->]|[? _]]]]. }
    rewrite (bool_decide_eq_false_2 _ H2).
    destruct (decide (eventType = "response")) as [->|H3].
    { simpl. split.
      - intros [= <-]. right. right. by right.
      - by intros [[? _]|[[? _]|[[? _]|[_ ->]]]]. }
    rewrite (bool_decide_eq_false_2 _ H3). split; [done|].
    by intros [[? _]|[[? _]|[[? _]|[? _]]]]. }
  split; [done|]. split.
  - intros ev Hev.
    assert (ev ≠ Event_EVENT_UNSPECIFIED) as Hne.
    { apply Hswitch in Hev as [[_ ->]|[[_ ->]|[[_ ->]|[_ ->]]]]; try done.
      by case_bool_decide. }
    split; [done|].
    intros topic from data event Hreq.
    unfold fromV1PublishRequest in Hreq. simpl in Hreq.
    destruct (NewGroupAddrString topic); [done|].
    case_bool_decide.
    + injection Hreq as <-. simpl. by destruct ev.
    + destruct (NewIndividualAddrString from); [done|].
      injection Hreq as <-. simpl. by destruct ev.
  - unfold publish_event_type. repeat case_bool_decide; subst; split;
      try (intros [e He]; done); try (by intros (? & ? & ? & ?));
      try (intros _; by eexists); done.
Qed.

(** X27. The subscribe command: without [--event] the request carries the
    filter Unspecified, which no event fails, so the subscriber is sent
    every kind; with read, write or response it carries the filter Read,
    Write or Response, and then exactly the events whose command is
    GroupRead, GroupWrite or GroupResponse pass the filter of the
    dispatcher; any other word is refused. *)
Theorem subscribe_command_filter (eventFilter : string) :
  (∀ ev, subscribe_event_filter eventFilter = inr ev ↔
     (eventFilter = "" ∧ ev = Event_EVENT_UNSPECIFIED) ∨
     (eventFilter = "read" ∧ ev = Event_EVENT_READ) ∨
     (eventFilter = "write" ∧ ev = Event_EVENT_WRITE) ∨
     (eventFilter = "response" ∧ ev = Event_EVENT_RESPONSE)) ∧
  (∀ ev topics st event,
     subscribe_event_filter eventFilter = inr ev →
     (not_interested {| req := {| GroupAddresses := topics; Event_of := ev |};
                        stream := st |} (toV1SubscribeResponse event) = false ↔
      eventFilter = "" ∨
      (eventFilter = "read" ∧ Command event = GroupRead) ∨
      (eventFilter = "write" ∧ Command event = GroupWrite) ∨
      (eventFilter = "response" ∧ Command event = GroupResponse))) ∧
  ((∃ e, subscribe_event_filter eventFilter = inl e) ↔
     eventFilter ≠ "" ∧ eventFilter ≠ "read" ∧ eventFilter ≠ "write" ∧
     eventFilter ≠ "response").
Proof.
  assert (∀ ev, subscribe_event_filter eventFilter = inr ev ↔
     (eventFilter = "" ∧ ev = Event_EVENT_UNSPECIFIED) ∨
     (eventFilter = "read" ∧ ev = Event_EVENT_READ) ∨
     (eventFilter = "write" ∧ ev = Event_EVENT_WRITE) ∨
     (eventFilter = "response" ∧ ev = Event_EVENT_RESPONSE)) as Hswitch.
  { intros ev. unfold subscribe_event_filter.
    destruct (decide (eventFilter = "")) as [->|H0].
    { simpl. split.
      - intros [= <-]. by left.
      - by intros [[_ ->]|[[? _]|[[? _]|[? _]]]]. }
    rewrite (bool_decide_eq_false_2 _ H0).
    destruct (decide (eventFilter = "read")) as [->|H1].
    { simpl. split.
      - intros [= <-]. right. by left.
      - by intros [[? _]|[[_ ->]|[[? _]|[? _]]]]. }
    rewrite (bool_decide_eq_false_2 _ H1).
    destruct (decide (eventFilter = "write")) as [->|H2].
    { simpl. split.
      - intros [= <-]. right. right. by left.
      - by intros [[? _]|[[? _]|[[_ ->]|[? _]]]]. }
    rewrite (bool_decide_eq_false_2 _ H2).
    destruct (decide (eventFilter = "response")) as [->|H3].
    { simpl. split.
      - intros [= <-]. right. right. by right.
      - by intros [[? _]|[[? _]|[[? _]|[_ ->]]]]. }
    rewrite (bool_decide_eq_false_2 _ H3). split; [done|].
    by intros [[? _]|[[? _]|[[? _]|[? _]]]]. }
  split; [done|]. split.
  - intros ev topics st event Hev. rewrite not_interested_command. simpl.
    apply Hswitch in Hev as [[-> ->]|[[-> ->]|[[-> ->]|[-> ->]]]].
    + split; [by left|]. intros _. by left.
    + split.
      * intros [?|[[_ ?]|[[? _]|[? _]]]]; try done. right. by left.
      * intros [?|[[_ ?]|[[? _]|[? _]]]]; try done. right. by left.
    + split.
      * intros [?|[[? _]|[[? _]|[_ ?]]]]; try done. right. right. by left.
      * intros [?|[[? _]|[[_ ?]|[? _]]]]; try done. right. right. by right.
    + split.
      * intros [?|[[? _]|[[_ ?]|[? _]]]]; try done. right. right. by right.
      * intros [?|[[? _]|[[? _]|[_ ?]]]]; try done. right. right. by left.
  - unfold subscribe_event_filter. repeat case_bool_decide; subst; split;
      try (intros [e He]; done); try (by intros (? & ? & ? & ?));
      try (intros _; by eexists); done.
Qed.

End CommandLine.

(** * More runs in the concrete world *)

Lemma unregister_undoes_register_witness :
  unregisterSubscriber [2563%N; 9478%N; 2563%N] 9
    (registerSubscriber [2563%N; 9478%N; 2563%N]
       (demo_request ["1/2/3"; "4/5/6"; "1/2/3"] Event_EVENT_READ) 9 demo_server)
  = demo_server.
Proof.
  exact (unregister_undoes_register [2563%N; 9478%N; 2563%N]
           (demo_request ["1/2/3"; "4/5/6"; "1/2/3"] Event_EVENT_READ) 9
           demo_server demo_server_no_empty).
Defined.

Lemma unregister_absent_is_noop_witness :
  unregisterSubscriber [2563%N; 9478%N] 9 demo_server = demo_server.
Proof.
  exact (unregister_absent_is_noop [2563%N; 9478%N] 9 demo_server
           (proj1 (demo_server_fresh 9 ltac:(lia)))).
Defined.

Lemma unregisterSniffer_removes_one_witness :
  0 < occ 2 (sniffers demo_server) ∧
  S (length (sniffers (unregisterSniffer 2 demo_server))) =
    length (sniffers demo_server).
Proof.
  assert (0 < occ 2 (sniffers demo_server)) as Hocc by (vm_compute; lia).
  split; [exact Hocc|].
  exact (proj1 (proj2 (unregisterSniffer_removes_one 2 demo_server Hocc))).
Defined.

Lemma swap_remove_moves_last_witness :
  remove_stream 2
    [demo_sub Event_EVENT_UNSPECIFIED 1; demo_sub Event_EVENT_READ 2;
     demo_sub Event_EVENT_WRITE 3; demo_sub Event_EVENT_RESPONSE 4] =
  [demo_sub Event_EVENT_UNSPECIFIED 1; demo_sub Event_EVENT_RESPONSE 4;
   demo_sub Event_EVENT_WRITE 3].
Proof.
  refine (proj1 (swap_remove_moves_last 2 [demo_sub Event_EVENT_UNSPECIFIED 1]
                   [demo_sub Event_EVENT_WRITE 3] (demo_sub Event_EVENT_READ 2)
                   (demo_sub Event_EVENT_RESPONSE 4) eq_refl) eq_refl _).
  simpl. lia.
Defined.

Lemma absent_stream_gets_nothing_witness :
  sends_to 9 (trace_of (dispatchEvent (C := demo) (demo_event GroupWrite)
                          demo_server)) = 0.
Proof.
  destruct (demo_server_fresh 9) as [Hfree Hsniff]; [lia|].
  refine (absent_stream_gets_nothing (C := demo) (demo_event GroupWrite)
            demo_server 9 _ Hsniff).
  apply stream_free_alt with (t := 2563%N) in Hfree. exact Hfree.
Defined.

Lemma messages_per_registered_stream_witness :
  sends_to 1 (trace_of (dispatchEvent (C := demo) (demo_event GroupWrite)
                          (foldl (Subscribe_register (C := demo)) New demo_calls)))
  = 2.
Proof.
  assert (NoDup demo_calls.*2) as H1.
  { apply NoDup_ListNoDup. repeat constructor; simpl; lia. }
  assert ((demo_request ["1/2/3"; "1/2/3"] Event_EVENT_UNSPECIFIED, 1)
          ∈ demo_calls) as H2 by left.
  exact (messages_per_registered_stream (C := demo) demo_calls
           (demo_request ["1/2/3"; "1/2/3"] Event_EVENT_UNSPECIFIED) 1
           [2563%N; 2563%N] (demo_event GroupWrite) H1 H2 eq_refl).
Defined.

Lemma no_message_after_call_done_witness :
  let r := demo_request ["1/2/3"; "4/5/6"] Event_EVENT_UNSPECIFIED in
  let parked := [OpRegisterSniffer (demo_request [] Event_EVENT_WRITE) 5] in
  let later := [OpUnregisterSniffer 5] in
  sends_to 9 (trace_of (dispatchEvent (C := demo) (demo_event GroupWrite)
    (run_ops later (Subscribe (C := demo) r 9 parked CallCtxDone demo_server).2)))
  = 0.
Proof.
  intros r parked later.
  destruct (demo_server_fresh 9) as [Hfree Hsniff]; [lia|].
  refine (no_message_after_call_done (C := demo) r 9 [2563%N; 9478%N] parked
            later demo_server (demo_event GroupWrite) eq_refl
            demo_server_no_empty Hfree Hsniff _ _);
    repeat constructor; simpl; lia.
Defined.

Lemma Subscribe_malformed_registers_nothing_witness :
  ∃ e, Subscribe (C := demo) (demo_request ["1/2/3"; "1-2-3"] Event_EVENT_READ)
         9 [] CallCtxDone demo_server =
       (Some (NewError CodeInvalidArgument e), demo_server).
Proof.
  refine (Subscribe_malformed_registers_nothing (C := demo)
            (demo_request ["1/2/3"; "1-2-3"] Event_EVENT_READ) 9 []
            CallCtxDone demo_server "1-2-3"
            (errorString "invalid group address") _ eq_refl).
  right. left.
Defined.

Lemma Subscribe_alone_restores_registry_witness :
  Subscribe (C := demo) (demo_request ["1/2/3"; "4/5/6"] Event_EVENT_READ) 9 []
    CallCtxDone demo_server = (None, demo_server).
Proof.
  exact (Subscribe_alone_restores_registry (C := demo)
           (demo_request ["1/2/3"; "4/5/6"] Event_EVENT_READ) 9
           [2563%N; 9478%N] demo_server eq_refl demo_server_no_empty).
Defined.

Lemma published_kind_and_data_come_back_witness :
  resp_Event (toV1SubscribeResponse (C := demo) (demo_event GroupWrite)) =
    Event_EVENT_WRITE ∧
  resp_Data (toV1SubscribeResponse (C := demo) (demo_event GroupWrite)) = [1%N].
Proof.
  destruct (published_kind_and_data_come_back (C := demo) (demo_publish "1/2/3")
              (demo_event GroupWrite) eq_refl) as (Hkind & Hdata & _).
  split; [exact Hkind | exact Hdata].
Defined.

Lemma interceptor_value_is_accepted_witness :
  hi_value (NewAuthInterceptor demo_auth) = "Bearer CHANGEME" ∧
  authenticateRPC (G := demo_strings) demo_auth "Bearer CHANGEME" = None.
Proof.
  split; [reflexivity|].
  exact (proj2 (interceptor_value_is_accepted (G := demo_strings) demo_auth
                  eq_refl)).
Defined.
